(** * A memory bandwidth profiler: the measurement harness of [main.c]

    The development embeds the timing harness of [main.c] ([to_bw],
    [timeit], [timeitp], [main]) and proves the properties its
    specification states about sampling, partitioning and reporting.

    - C integers are [Z] with the wrap-around of their type written out.
    - A C [double] is an IEEE-754 binary64 value, taken from the standard
      library's executable specification [SpecFloat] (53 bits of
      precision, exponents up to 1024, round to nearest even).
    - The monotonic clock is an oracle: its n-th reading is [clock n].
    - The OpenMP runtime is an oracle too: it decides how many threads run
      each parallel region, never more than [omp_get_max_threads ()].
    - Everything observable (clock reads, kernel calls, [memset], output)
      is recorded, in program order, in the [trace] of the state. *)

From Stdlib Require Import ZArith List Bool Lia String.
From Stdlib Require Import SpecFloat.
From Stdlib Require Import Reals Lra.
Import ListNotations.
Local Open Scope Z_scope.

Set Implicit Arguments.

(** ** Machine integers *)

Module CInt.

(** [unsigned long long] and [size_t] are 64 bits wide (LP64). *)
Definition ULL_MODULUS : Z := 2 ^ 64.
Definition INT_MAX : Z := 2 ^ 31 - 1.

(** Conversion of any integer value to [unsigned long long]. *)
Definition to_ull (z : Z) : Z := z mod ULL_MODULUS.

Definition ull_mul (a b : Z) : Z := to_ull (a * b).
(** Unsigned division and remainder; the divisor is never 0 on the
    paths that are modelled ([omp_get_max_threads () >= 1]). *)
Definition ull_div (a b : Z) : Z := a / b.
Definition ull_rem (a b : Z) : Z := a mod b.
(** Signed division of [long long] truncates towards zero. *)
Definition ll_div (a b : Z) : Z := Z.quot a b.

Definition is_ull (z : Z) : Prop := 0 <= z < ULL_MODULUS.

End CInt.

(** ** Doubles *)

Module Double.

Definition prec : Z := 53.
Definition emax : Z := 1024.

Definition double : Type := spec_float.

Definition zero : double := S754_zero false.
Definition INFINITY : double := S754_infinity false.

(** [(double) z] for an integer [z]: the nearest binary64 value. *)
Definition of_Z (z : Z) : double := binary_normalize prec emax z 0 false.

Definition div (x y : double) : double := SFdiv prec emax x y.
Definition sub (x y : double) : double := SFsub prec emax x y.
(** The C comparisons [<] and [<=] (false when an operand is a NaN). *)
Definition ltb (x y : double) : bool := SFltb x y.
Definition leb (x y : double) : bool := SFleb x y.

(** A well-formed binary64 value (canonical mantissa and exponent). *)
Definition is_double (x : double) : Prop := valid_binary prec emax x = true.

Definition is_nan (x : double) : bool :=
  match x with S754_nan => true | _ => false end.

(** The value a decimal literal [n/d] denotes: correctly rounded. *)
Definition literal (n d : Z) : double := div (of_Z n) (of_Z d).

End Double.

Import CInt Double.

(** ** Constants of [main.c] *)

Definition SAMPLES : nat := 5.
Definition TIMES : nat := 5.
Definition BYTES_PER_GB : Z := 1024 * 1024 * 1024.
Definition MAX_SIZE : Z := 1 * BYTES_PER_GB.
Definition PAGE_SIZE : Z := Z.shiftl 1 12.
Definition RENICE : Z := -10.

(** ** [to_bw]: bandwidth in GiB/s *)

Definition to_bw (bytes : Z) (secs : double) : double :=
  let size_bytes := of_Z bytes in
  let size_gb := div size_bytes (of_Z BYTES_PER_GB) in
  div size_gb secs.

(** ** The kernel catalogue

    The kernels themselves live in [functions.h]; the harness only takes
    their address, and the [timefun]/[timefunp] macros stringify their
    name. *)

Inductive kernel : Type :=
| read_memory_rep_lodsq
| read_memory_loop
| read_memory_sse
| read_memory_avx
| read_memory_prefetch_avx
| write_memory_loop
| write_memory_rep_stosq
| write_memory_sse
| write_memory_nontemporal_sse
| write_memory_avx
| write_memory_nontemporal_avx
| write_memory_memset.

Definition kernel_name (k : kernel) : string :=
  match k with
  | read_memory_rep_lodsq => "read_memory_rep_lodsq"
  | read_memory_loop => "read_memory_loop"
  | read_memory_sse => "read_memory_sse"
  | read_memory_avx => "read_memory_avx"
  | read_memory_prefetch_avx => "read_memory_prefetch_avx"
  | write_memory_loop => "write_memory_loop"
  | write_memory_rep_stosq => "write_memory_rep_stosq"
  | write_memory_sse => "write_memory_sse"
  | write_memory_nontemporal_sse => "write_memory_nontemporal_sse"
  | write_memory_avx => "write_memory_avx"
  | write_memory_nontemporal_avx => "write_memory_nontemporal_avx"
  | write_memory_memset => "write_memory_memset"
  end%string.

(** ** Build configuration and host *)

Record config : Type := {
  WITH_OPENMP : bool;
  have_SSE4_1 : bool;
  have_AVX : bool;
  (** what [omp_get_max_threads ()] returns, an [int] *)
  omp_max_threads : Z;
  (** how many threads the OpenMP runtime is ready to give the parallel
      region that is entered after [n] clock readings *)
  omp_num_threads : nat -> Z;
  (** what [nice (RENICE)] returns and the [errno] it leaves *)
  nice_result : Z;
  nice_errno : Z
}.

(** ** Observable events *)

Inductive event : Type :=
| EvMemset (offset len : Z)             (* memset (array + offset, 0xFF, len) *)
| EvClock (reading : nat)               (* one call of monotonic_time *)
| EvKernel (k : kernel) (offset len : Z) (* function (&array[offset], len) *)
| EvAssert (ok : bool)                  (* the assert of timeitp was evaluated *)
| EvBarrier                             (* #pragma omp barrier *)
| EvReport (omp : bool) (name : string) (bw : double) (* the printf line *)
| EvHeader (threads : Z)                (* the section header on stderr *)
| EvNice (increment : Z)
| EvWarning.                            (* perror *)

(** ** Program state

    [SIZE] is the one mutable global; [reads] counts the clock readings
    consumed so far; [trace] lists the events in program order. *)

Record state : Type := {
  SIZE : Z;
  reads : nat;
  trace : list event
}.

Definition emit (e : event) (st : state) : state :=
  {| SIZE := SIZE st; reads := reads st; trace := trace st ++ [e] |}.

Definition set_SIZE (n : Z) (st : state) : state :=
  {| SIZE := n; reads := reads st; trace := trace st |}.

Definition initial_state : state :=
  {| SIZE := MAX_SIZE; reads := 0%nat; trace := [] |}.

(** How a run ends: normally, or in [abort ()] from a failed [assert]. *)
Inductive outcome (A : Type) : Type :=
| Done (a : A)
| Aborted (st : state).
Arguments Done {A} a.
Arguments Aborted {A} st.

Definition bind {A B : Type} (m : outcome A) (f : A -> outcome B) : outcome B :=
  match m with
  | Done a => f a
  | Aborted st => Aborted st
  end.

Notation "x <- m ;; k" := (bind m (fun x => k))
  (at level 61, m at next level, right associativity).

Definition final_state (o : outcome state) : state :=
  match o with Done st => st | Aborted st => st end.

(** [for (i = 0; i < n; i++) body] over a state that may abort. *)
Fixpoint for_loop {A : Type} (n : nat) (body : A -> outcome A) (a : A) : outcome A :=
  match n with
  | O => Done a
  | S n' => a' <- body a ;; for_loop n' body a'
  end.

(** The reduction [if (total < min) min = total;]. *)
Definition keep_min (min total : double) : double :=
  if ltb total min then total else min.

Section Harness.

(** The monotonic clock: its n-th reading, in seconds. *)
Variable clock : nat -> double.

Definition monotonic_time (st : state) : double * state :=
  (clock (reads st),
   {| SIZE := SIZE st; reads := S (reads st);
      trace := trace st ++ [EvClock (reads st)] |}).

(** [for (j = 0; j < TIMES; j++) function (&array[offset], len);] *)
Definition kernel_passes (k : kernel) (offset len : Z) (st : state) : state :=
  Nat.iter TIMES (emit (EvKernel k offset len)) st.

(** *** [timeit]: single-thread sampler *)

Definition timeit_sample (k : kernel) (acc : double * state) : double * state :=
  let '(min, st) := acc in
  let '(before, st) := monotonic_time st in
  let st := kernel_passes k 0 (SIZE st) st in
  let '(after, st) := monotonic_time st in
  let total := sub after before in
  (keep_min min total, st).

Definition timeit (k : kernel) (st : state) : state :=
  let '(min, st) := Nat.iter SAMPLES (timeit_sample k) (INFINITY, st) in
  emit (EvReport false (kernel_name k)
          (to_bw (ull_mul (SIZE st) (Z.of_nat TIMES)) min)) st.

(** *** [timeitp]: multi-core sampler

    [#pragma omp parallel] carries no [num_threads] clause, so the runtime
    decides how many threads run each region: at least the thread that
    encounters it (the master, thread 0) and at most
    [omp_get_max_threads ()], which is only an upper bound.  The harness
    never asks for the size of the team; it divides [SIZE] by
    [T = omp_get_max_threads ()].  A region is run by the threads
    [0 .. n-1] of its team; between the two barriers each of them performs
    its passes over its own chunk, and the master thread reads the clock
    after each barrier.  The threads' passes are listed in the trace
    thread by thread.

    The decisions of the runtime are an oracle, [num_threads]: the region
    that is entered after [r] clock readings is offered [num_threads r]
    threads (every region consumes two readings, so [r] tells the regions
    of a run apart). *)

(** The threads [0 .. n-1] of a team of [n]. *)
Definition team (n : Z) : list Z := map Z.of_nat (seq 0 (Z.to_nat n)).

(** The size of the team of a region when [T = omp_get_max_threads ()]
    and the runtime is ready to give [granted] threads. *)
Definition team_size (T granted : Z) : Z := Z.max 1 (Z.min T granted).

(** The argument pair thread [tid] hands to the kernel. *)
Definition chunk_of (chunk_size tid : Z) : Z * Z :=
  (ull_mul chunk_size tid, chunk_size).

Definition thread_passes (k : kernel) (chunk_size : Z) (st : state) (tid : Z) : state :=
  kernel_passes k (fst (chunk_of chunk_size tid)) (snd (chunk_of chunk_size tid)) st.

Definition timeitp_sample (num_threads : nat -> Z) (T : Z) (k : kernel)
           (acc : double * state) : outcome (double * state) :=
  let '(min, st) := acc in
  if Z.eqb (ull_rem (SIZE st) (to_ull T)) 0 then
    let st := emit (EvAssert true) st in
    let chunk_size := ull_div (SIZE st) (to_ull T) in
    let threads := team (team_size T (num_threads (reads st))) in
    let st := emit EvBarrier st in
    let '(before, st) := monotonic_time st in
    let st := fold_left (thread_passes k chunk_size) threads st in
    let st := emit EvBarrier st in
    let '(after, st) := monotonic_time st in
    let total := sub after before in
    Done (keep_min min total, st)
  else Aborted (emit (EvAssert false) st).

Definition timeitp (num_threads : nat -> Z) (T : Z) (k : kernel) (st : state)
  : outcome state :=
  r <- for_loop SAMPLES (timeitp_sample num_threads T k) (INFINITY, st) ;;
  let '(min, st) := r in
  Done (emit (EvReport true (kernel_name k)
                (to_bw (ull_mul (SIZE st) (Z.of_nat TIMES)) min)) st).

(** *** [main] *)

Definition when {A : Type} (b : bool) (l : list A) : list A :=
  if b then l else [].

(** The kernels that are compiled in, in the order [main] times them. *)
Definition catalogue (cfg : config) : list kernel :=
  [read_memory_rep_lodsq; read_memory_loop]
  ++ when (have_SSE4_1 cfg) [read_memory_sse]
  ++ when (have_AVX cfg) [read_memory_avx; read_memory_prefetch_avx]
  ++ [write_memory_loop; write_memory_rep_stosq]
  ++ when (have_SSE4_1 cfg) [write_memory_sse; write_memory_nontemporal_sse]
  ++ when (have_AVX cfg) [write_memory_avx; write_memory_nontemporal_avx]
  ++ [write_memory_memset].

Definition renice (cfg : config) (st : state) : state :=
  let st := emit (EvNice RENICE) st in
  if (nice_result cfg <? 0) && negb (nice_errno cfg =? 0)
  then emit EvWarning st else st.

(** The Active Size of the multi-core pass. *)
Definition omp_size (T : Z) : Z :=
  let npages_per_thread := to_ull (ll_div (ll_div MAX_SIZE T) PAGE_SIZE) in
  ull_mul (ull_mul (to_ull PAGE_SIZE) npages_per_thread) (to_ull T).

Fixpoint timefunp_all (num_threads : nat -> Z) (T : Z) (ks : list kernel)
         (st : state) : outcome state :=
  match ks with
  | [] => Done st
  | k :: ks' => st' <- timeitp num_threads T k st ;;
                timefunp_all num_threads T ks' st'
  end.

Definition multi_core_pass (cfg : config) (st : state) : outcome state :=
  let T := omp_max_threads cfg in
  let st := emit (EvHeader T) st in
  let st := set_SIZE (omp_size T) st in
  let st := emit (EvMemset 0 (SIZE st)) st in
  timefunp_all (omp_num_threads cfg) T (catalogue cfg) st.

Definition main (cfg : config) : outcome state :=
  let st := initial_state in
  let st := emit (EvMemset 0 (SIZE st)) st in
  let st := renice cfg st in
  let st := emit (EvHeader 1) st in
  let st := fold_left (fun s k => timeit k s) (catalogue cfg) st in
  if WITH_OPENMP cfg then multi_core_pass cfg st else Done st.

End Harness.

(** ** Derived notions used to state the properties *)

(** The reduction of a whole sample set, as the loops of [timeit] and
    [timeitp] perform it. *)
Definition min_elapsed (samples : list double) : double :=
  fold_left keep_min samples INFINITY.

(** The maximum of a set of bandwidths, starting from the first. *)
Definition max_bw (bws : list double) : double :=
  match bws with
  | [] => zero
  | b :: rest => fold_left (fun m x => if ltb m x then x else m) rest b
  end.

(** The byte range [[offset, offset + len)] a call covers. *)
Definition in_range (r : Z * Z) (b : Z) : Prop :=
  fst r <= b < fst r + snd r.

(** [st] after [n] more clock readings and the events [evs]. *)
Definition advance (st : state) (n : nat) (evs : list event) : state :=
  {| SIZE := SIZE st; reads := (reads st + n)%nat; trace := trace st ++ evs |}.

Section Traces.

Variable clock : nat -> double.

(** The elapsed time of the trial whose first clock reading is number [r]. *)
Definition elapsed_at (r : nat) : double := sub (clock (S r)) (clock r).

(** The elapsed times of [n] consecutive trials starting at reading [r]. *)
Definition elapsed_times (r n : nat) : list double :=
  map (fun i => elapsed_at (r + 2 * i)) (seq 0 n).

(** One single-thread trial: clock, [TIMES] passes over the view, clock. *)
Definition trial_events (k : kernel) (size : Z) (r : nat) : list event :=
  [EvClock r] ++ repeat (EvKernel k 0 size) TIMES ++ [EvClock (S r)].

Definition trials_events (k : kernel) (size : Z) (r n : nat) : list event :=
  List.concat (map (fun i => trial_events k size (r + 2 * i)) (seq 0 n)).

Definition timeit_events (k : kernel) (size : Z) (r : nat) : list event :=
  trials_events k size r SAMPLES
  ++ [EvReport false (kernel_name k)
        (to_bw (ull_mul size (Z.of_nat TIMES)) (min_elapsed (elapsed_times r SAMPLES)))].

(** The kernel calls of one parallel region run by a team of [n]
    threads, when [omp_get_max_threads ()] is [T]. *)
Definition region_events (n T : Z) (k : kernel) (size : Z) : list event :=
  List.concat (map (fun tid =>
                 repeat (EvKernel k (fst (chunk_of (ull_div size (to_ull T)) tid))
                                    (snd (chunk_of (ull_div size (to_ull T)) tid))) TIMES)
              (team n)).

(** One multi-core trial. *)
Definition ptrial_events (nt : nat -> Z) (T : Z) (k : kernel) (size : Z) (r : nat)
  : list event :=
  [EvAssert true; EvBarrier; EvClock r]
  ++ region_events (team_size T (nt r)) T k size ++ [EvBarrier; EvClock (S r)].

Definition ptrials_events (nt : nat -> Z) (T : Z) (k : kernel) (size : Z) (r n : nat)
  : list event :=
  List.concat (map (fun i => ptrial_events nt T k size (r + 2 * i)) (seq 0 n)).

Definition timeitp_events (nt : nat -> Z) (T : Z) (k : kernel) (size : Z) (r : nat)
  : list event :=
  ptrials_events nt T k size r SAMPLES
  ++ [EvReport true (kernel_name k)
        (to_bw (ull_mul size (Z.of_nat TIMES)) (min_elapsed (elapsed_times r SAMPLES)))].

(** A whole pass over a list of kernels. *)
Fixpoint single_pass_events (ks : list kernel) (size : Z) (r : nat) : list event :=
  match ks with
  | [] => []
  | k :: ks' => timeit_events k size r
                ++ single_pass_events ks' size (r + 2 * SAMPLES)
  end.

Fixpoint multi_pass_events (nt : nat -> Z) (T : Z) (ks : list kernel) (size : Z)
         (r : nat) : list event :=
  match ks with
  | [] => []
  | k :: ks' => timeitp_events nt T k size r
                ++ multi_pass_events nt T ks' size (r + 2 * SAMPLES)
  end.

End Traces.


Definition is_memset (e : event) : bool :=
  match e with EvMemset _ _ => true | _ => false end.

Definition is_kernel (e : event) : bool :=
  match e with EvKernel _ _ _ => true | _ => false end.

(** How many times the buffer is initialised in a trace. *)
Definition memset_count (evs : list event) : nat :=
  List.length (filter is_memset evs).

(** A kernel call stays inside [array]. *)
Definition within_array (e : event) : Prop :=
  match e with
  | EvKernel _ offset len => 0 <= offset /\ 0 <= len /\ offset + len <= MAX_SIZE
  | _ => True
  end.

(** A well-formed [int] thread count, as [omp_get_max_threads] returns. *)
Definition thread_count (T : Z) : Prop := 1 <= T <= INT_MAX.

(** ** The order of doubles

    [SFcompare] orders the non-NaN doubles lexicographically by class,
    exponent and mantissa; [rank] is the key it compares. *)

Definition rank (x : double) : Z * Z * Z :=
  match x with
  | S754_zero _ => (0, 0, 0)
  | S754_nan => (0, 0, 0)
  | S754_infinity s => (if s then -2 else 2, 0, 0)
  | S754_finite s m e => if s then (-1, - e, - Zpos m) else (1, e, Zpos m)
  end.

Definition lex_le (a b : Z * Z * Z) : Prop :=
  fst (fst a) < fst (fst b)
  \/ (fst (fst a) = fst (fst b)
      /\ (snd (fst a) < snd (fst b)
          \/ (snd (fst a) = snd (fst b) /\ snd a <= snd b))).

Definition lex_lt (a b : Z * Z * Z) : Prop :=
  fst (fst a) < fst (fst b)
  \/ (fst (fst a) = fst (fst b)
      /\ (snd (fst a) < snd (fst b)
          \/ (snd (fst a) = snd (fst b) /\ snd a < snd b))).

(** A double that is [+0], positive and finite, or [+inf]. *)
Definition nonneg (x : double) : Prop :=
  match x with
  | S754_zero s | S754_infinity s | S754_finite s _ _ => s = false
  | S754_nan => False
  end.

(** ** The events of a whole run of [main] *)

Definition renice_events (cfg : config) : list event :=
  EvNice RENICE
  :: (if (nice_result cfg <? 0) && negb (nice_errno cfg =? 0)
      then [EvWarning] else []).

Definition single_core_events (clock : nat -> double) (cfg : config) : list event :=
  [EvMemset 0 MAX_SIZE] ++ renice_events cfg ++ [EvHeader 1]
  ++ single_pass_events clock (catalogue cfg) MAX_SIZE 0.

Definition multi_core_events (clock : nat -> double) (cfg : config) : list event :=
  let T := omp_max_threads cfg in
  [EvHeader T; EvMemset 0 (omp_size T)]
  ++ multi_pass_events clock (omp_num_threads cfg) T (catalogue cfg) (omp_size T)
       (2 * SAMPLES * List.length (catalogue cfg)).

Definition main_events (clock : nat -> double) (cfg : config) : list event :=
  single_core_events clock cfg
  ++ (if WITH_OPENMP cfg then multi_core_events clock cfg else []).

(** Every evaluation of the [assert] recorded in a trace succeeded. *)
Definition asserts_hold (evs : list event) : bool :=
  forallb (fun e => match e with EvAssert ok => ok | _ => true end) evs.

(** The events a run of [main] may contain, for thread count [T]. *)
Definition expected_event (T : Z) (e : event) : Prop :=
  match e with
  | EvMemset offset len => offset = 0 /\ (len = MAX_SIZE \/ len = omp_size T)
  | EvKernel _ offset len =>
      (offset = 0 /\ len = MAX_SIZE)
      \/ exists tid, 0 <= tid < T
           /\ (offset, len) = chunk_of (ull_div (omp_size T) (to_ull T)) tid
  | EvAssert ok => ok = true
  | _ => True
  end.

(** The host of the example runs: a multi-core build on four threads,
    every parallel region being run by all four. *)
Definition four_threads : config :=
  {| WITH_OPENMP := true; have_SSE4_1 := true; have_AVX := true;
     omp_max_threads := 4; omp_num_threads := fun _ => 4;
     nice_result := 0; nice_errno := 0 |}.

(** A clock that always reads [+0]. *)
Definition still_clock : nat -> double := fun _ => zero.

(** ** Real-number semantics of rounding

    The doubles are related to the real numbers they denote in order to
    show that the division of [to_bw] is monotone.  [bpow e] is [2^e];
    [located t m l] says that the real [t] lies in [[m, m+1)] at the
    position the location [l] describes; a pair [(m, e)] is in normal
    form when it has the exponent the format gives to numbers of its
    magnitude. *)

Definition bpow (e : Z) : R := powerRZ 2 e.

Definition located (t : R) (m : Z) (l : location) : Prop :=
  match l with
  | loc_Exact => t = IZR m
  | loc_Inexact Lt => (IZR m < t < IZR m + / 2)%R
  | loc_Inexact Eq => t = (IZR m + / 2)%R
  | loc_Inexact Gt => (IZR m + / 2 < t < IZR m + 1)%R
  end.

Definition normal_form (m e : Z) : Prop :=
  0 <= m < 2 ^ 53 /\ emin prec emax <= e /\ (e = emin prec emax \/ 2 ^ 52 <= m).

(** The last steps of [binary_round_aux], for a positive sign: the
    rounded mantissa is renormalised and the overflow test is made. *)
Definition finalize (r e : Z) : double :=
  let '(mrs, e') := shr_fexp prec emax r e loc_Exact in
  match shr_m mrs with
  | Z0 => S754_zero false
  | Zpos m => if e' <=? emax - prec then S754_finite false m e'
              else S754_infinity false
  | Zneg _ => S754_nan
  end.

(** [f] is the double the positive real [x] rounds to. *)
Definition rounds (x : R) (f : double) : Prop :=
  exists m e l,
    normal_form m e /\ located (x / bpow e) m l
    /\ f = finalize (round_nearest_even m l) e.

(** The real number a finite double denotes (0 for the others). *)
Definition value (f : double) : R :=
  match f with
  | S754_finite s m e => ((if s then -1 else 1) * IZR (Zpos m) * bpow e)%R
  | _ => 0%R
  end.

(** The doubles a non-negative quotient can be: [+0] or a positive
    finite number. *)
Definition finite_nonneg (f : double) : Prop :=
  match f with
  | S754_zero false => True
  | S754_finite false _ _ => True
  | _ => False
  end.

(** The key [rank] gives to [finalize r e], in closed form. *)
Definition finalize_rank (r e : Z) : Z * Z * Z :=
  if r =? 0 then (0, 0, 0)
  else if r <? 2 ^ 53
       then (if e <=? 971 then (1, e, r) else (2, 0, 0))
       else (if e + 1 <=? 971 then (1, e + 1, 2 ^ 52) else (2, 0, 0)).

(** A well-formed double that is strictly positive ([+inf] included). *)
Definition positive_double (s : double) : Prop :=
  is_double s /\ ltb zero s = true.

(** ** Projections of a trace *)

(** The clock readings consumed, in order. *)
Definition clock_reads (evs : list event) : list nat :=
  flat_map (fun e => match e with EvClock n => [n] | _ => [] end) evs.

(** The lines printed on standard output: pass and kernel name. *)
Definition reports (evs : list event) : list (bool * string) :=
  flat_map (fun e => match e with EvReport omp name _ => [(omp, name)] | _ => [] end) evs.

(** The bandwidths printed, in order. *)
Definition reported_bandwidths (evs : list event) : list double :=
  flat_map (fun e => match e with EvReport _ _ bw => [bw] | _ => [] end) evs.

(** The events of the priority adjustment. *)
Definition is_renice (e : event) : bool :=
  match e with EvNice _ | EvWarning => true | _ => false end.

(** The same host and build with another outcome of [nice]. *)
Definition with_nice (cfg : config) (result errno : Z) : config :=
  {| WITH_OPENMP := WITH_OPENMP cfg; have_SSE4_1 := have_SSE4_1 cfg;
     have_AVX := have_AVX cfg; omp_max_threads := omp_max_threads cfg;
     omp_num_threads := omp_num_threads cfg;
     nice_result := result; nice_errno := errno |}.

(** The same host with a build without multi-core support. *)
Definition without_openmp (cfg : config) : config :=
  {| WITH_OPENMP := false; have_SSE4_1 := have_SSE4_1 cfg;
     have_AVX := have_AVX cfg; omp_max_threads := omp_max_threads cfg;
     omp_num_threads := omp_num_threads cfg;
     nice_result := nice_result cfg; nice_errno := nice_errno cfg |}.

(** The events a sampler ([timeit] or [timeitp]) can produce. *)
Definition is_sampler_event (e : event) : bool :=
  match e with
  | EvClock _ | EvKernel _ _ _ | EvAssert _ | EvBarrier | EvReport _ _ _ => true
  | _ => false
  end.

(** ** A monotonic clock

    The contract of [monotonic_time]: every reading is a well-formed,
    finite, non-negative number of seconds, and no reading is smaller
    than the one before. *)
Definition monotonic (clock : nat -> double) : Prop :=
  forall n, is_double (clock n) /\ finite_nonneg (clock n)
            /\ leb (clock n) (clock (S n)) = true.

(** An elapsed time a monotonic clock can give: [+0] or strictly
    positive. *)
Definition plausible_elapsed (t : double) : Prop :=
  t = zero \/ positive_double t.

(** ** Comparing the two samplers *)

(** A trace without the events only [timeitp] has: the evaluations of its
    [assert] and the barriers. *)
Definition strip_sync (evs : list event) : list event :=
  filter (fun e => match e with EvAssert _ | EvBarrier => false | _ => true end) evs.

(** A report line read as a single-core line. *)
Definition as_single_core (e : event) : event :=
  match e with
  | EvReport _ name bw => EvReport false name bw
  | _ => e
  end.

(** ** Kernel calls, kernel by kernel *)




(** ** A runtime that gives less than it announces *)

(** A runtime that runs every parallel region with two threads. *)
Definition two_threads : nat -> Z := fun _ => 2.


(** * Properties *)

(** C5. [to_bw (4 * BYTES_PER_GB) 2.0] is exactly the double [2.0]. *)
Theorem to_bw_four_gib_two_seconds :
  to_bw (4 * BYTES_PER_GB) (of_Z 2) = of_Z 2
  /\ of_Z 2 = S754_finite false 4503599627370496 (-51)
  /\ BYTES_PER_GB = 2 ^ 30.
Proof. repeat split; vm_compute; reflexivity. Qed.

(** ** States as extensions of earlier states *)

Lemma advance_eq (st : state) (n m : nat) (l l' : list event) :
  n = m -> l = l' -> advance st n l = advance st m l'.
Proof. intros -> ->; reflexivity. Qed.

Lemma advance_0_nil (st : state) : advance st 0 [] = st.
Proof.
  destruct st as [sz r tr]; unfold advance; simpl.
  now rewrite Nat.add_0_r, app_nil_r.
Qed.

Lemma emit_advance (e : event) (st : state) : emit e st = advance st 0 [e].
Proof.
  destruct st as [sz r tr]; unfold emit, advance; simpl.
  now rewrite Nat.add_0_r.
Qed.

Lemma advance_advance (st : state) (a b : nat) (l l' : list event) :
  advance (advance st a l) b l' = advance st (a + b) (l ++ l').
Proof.
  unfold advance; simpl. now rewrite Nat.add_assoc, app_assoc.
Qed.

Lemma SIZE_advance (st : state) n l : SIZE (advance st n l) = SIZE st.
Proof. reflexivity. Qed.

Lemma reads_advance (st : state) n l : reads (advance st n l) = (reads st + n)%nat.
Proof. reflexivity. Qed.

Lemma trace_advance (st : state) n l : trace (advance st n l) = trace st ++ l.
Proof. reflexivity. Qed.

Lemma iter_emit (n : nat) (e : event) (st : state) :
  Nat.iter n (emit e) st = advance st 0 (repeat e n).
Proof.
  induction n as [|n IH]; simpl.
  - now rewrite advance_0_nil.
  - rewrite IH, emit_advance, advance_advance.
    apply advance_eq; [reflexivity|].
    now rewrite <- repeat_cons.
Qed.

Section TraceLemmas.

Variable clock : nat -> double.

Lemma monotonic_time_advance (st : state) :
  monotonic_time clock st = (clock (reads st), advance st 1 [EvClock (reads st)]).
Proof.
  unfold monotonic_time, advance. now rewrite Nat.add_1_r.
Qed.

Lemma kernel_passes_advance (k : kernel) (o len : Z) (st : state) :
  kernel_passes k o len st = advance st 0 (repeat (EvKernel k o len) TIMES).
Proof. apply iter_emit. Qed.

Lemma timeit_sample_advance (k : kernel) (min : double) (st : state) :
  timeit_sample clock k (min, st)
  = (keep_min min (elapsed_at clock (reads st)),
     advance st 2 (trial_events k (SIZE st) (reads st))).
Proof.
  unfold timeit_sample.
  rewrite monotonic_time_advance, kernel_passes_advance, advance_advance.
  rewrite monotonic_time_advance, advance_advance.
  rewrite SIZE_advance, reads_advance.
  unfold elapsed_at, trial_events.
  replace (reads st + (1 + 0))%nat with (S (reads st)) by lia.
  now rewrite <- app_assoc.
Qed.

Lemma elapsed_times_S (r n : nat) :
  elapsed_times clock r (S n)
  = elapsed_times clock r n ++ [elapsed_at clock (r + 2 * n)].
Proof. unfold elapsed_times. now rewrite seq_S, map_app. Qed.

Lemma trials_events_S (k : kernel) (size : Z) (r n : nat) :
  trials_events k size r (S n)
  = trials_events k size r n ++ trial_events k size (r + 2 * n).
Proof.
  unfold trials_events. rewrite seq_S, map_app, concat_app.
  cbn [map List.concat]. now rewrite app_nil_r.
Qed.

Lemma timeit_samples_advance (k : kernel) (n : nat) (min : double) (st : state) :
  Nat.iter n (timeit_sample clock k) (min, st)
  = (fold_left keep_min (elapsed_times clock (reads st) n) min,
     advance st (2 * n) (trials_events k (SIZE st) (reads st) n)).
Proof.
  induction n as [|n IH].
  - simpl. now rewrite advance_0_nil.
  - rewrite Nat.iter_succ, IH, timeit_sample_advance.
    rewrite advance_advance, SIZE_advance, reads_advance.
    rewrite elapsed_times_S, trials_events_S, fold_left_app. simpl.
    f_equal. apply advance_eq; [lia | reflexivity].
Qed.

Lemma timeit_advance (k : kernel) (st : state) :
  timeit clock k st
  = advance st (2 * SAMPLES) (timeit_events clock k (SIZE st) (reads st)).
Proof.
  unfold timeit. rewrite timeit_samples_advance.
  rewrite emit_advance, advance_advance, SIZE_advance.
  apply advance_eq; [lia | reflexivity].
Qed.

End TraceLemmas.

(** ** The multi-core sampler as a state extension *)

Lemma to_ull_small (z : Z) : is_ull z -> to_ull z = z.
Proof. unfold is_ull, to_ull. intros H. now apply Z.mod_small. Qed.

Lemma thread_count_is_ull (T : Z) : thread_count T -> is_ull T.
Proof.
  unfold thread_count, is_ull, INT_MAX, ULL_MODULUS. intros [H1 H2].
  split; [lia|]. eapply Z.le_lt_trans; [exact H2|]. reflexivity.
Qed.

Lemma to_ull_thread_count (T : Z) : thread_count T -> to_ull T = T.
Proof. intros H. now apply to_ull_small, thread_count_is_ull. Qed.

Section PTraceLemmas.

Variable clock : nat -> double.

Lemma elapsed_times_cons (r n : nat) :
  elapsed_times clock r (S n)
  = elapsed_at clock r :: elapsed_times clock (r + 2) n.
Proof.
  unfold elapsed_times. cbn [seq map]. rewrite Nat.mul_0_r, Nat.add_0_r.
  f_equal. rewrite <- seq_shift, map_map.
  apply map_ext. intros i. f_equal. lia.
Qed.

Lemma ptrials_events_cons (nt : nat -> Z) (T : Z) (k : kernel) (size : Z) (r n : nat) :
  ptrials_events nt T k size r (S n)
  = ptrial_events nt T k size r ++ ptrials_events nt T k size (r + 2) n.
Proof.
  unfold ptrials_events. cbn [seq map List.concat].
  rewrite Nat.mul_0_r, Nat.add_0_r.
  f_equal. rewrite <- seq_shift, map_map. f_equal.
  apply map_ext. intros i. f_equal. lia.
Qed.

Lemma fold_thread_passes (k : kernel) (c : Z) (tids : list Z) (st : state) :
  fold_left (thread_passes k c) tids st
  = advance st 0
      (List.concat (map (fun tid => repeat (EvKernel k (fst (chunk_of c tid))
                                              (snd (chunk_of c tid))) TIMES) tids)).
Proof.
  revert st. induction tids as [|tid tids IH]; intros st.
  - simpl. now rewrite advance_0_nil.
  - cbn [fold_left map List.concat]. rewrite IH. unfold thread_passes.
    rewrite kernel_passes_advance, advance_advance.
    apply advance_eq; reflexivity.
Qed.

Lemma timeitp_sample_ok (nt : nat -> Z) (T : Z) (k : kernel) (min : double)
      (st : state) :
  ull_rem (SIZE st) (to_ull T) = 0 ->
  timeitp_sample clock nt T k (min, st)
  = Done (keep_min min (elapsed_at clock (reads st)),
          advance st 2 (ptrial_events nt T k (SIZE st) (reads st))).
Proof.
  intros H. unfold timeitp_sample. rewrite H. cbn [Z.eqb].
  rewrite !emit_advance, !advance_advance, monotonic_time_advance.
  rewrite fold_thread_passes, !advance_advance, !emit_advance, !advance_advance.
  rewrite monotonic_time_advance, !advance_advance.
  rewrite !SIZE_advance, !reads_advance.
  unfold elapsed_at, ptrial_events, region_events.
  cbn [Nat.add]. rewrite ?Nat.add_0_r, ?Nat.add_1_r.
  do 2 f_equal. rewrite <- !app_assoc. reflexivity.
Qed.

Lemma timeitp_sample_abort (nt : nat -> Z) (T : Z) (k : kernel) (min : double)
      (st : state) :
  ull_rem (SIZE st) (to_ull T) <> 0 ->
  timeitp_sample clock nt T k (min, st) = Aborted (emit (EvAssert false) st).
Proof.
  intros H. unfold timeitp_sample.
  destruct (Z.eqb_spec (ull_rem (SIZE st) (to_ull T)) 0); [contradiction | reflexivity].
Qed.

Lemma timeitp_samples_ok (nt : nat -> Z) (T : Z) (k : kernel) (n : nat)
      (min : double) (st : state) :
  ull_rem (SIZE st) (to_ull T) = 0 ->
  for_loop n (timeitp_sample clock nt T k) (min, st)
  = Done (fold_left keep_min (elapsed_times clock (reads st) n) min,
          advance st (2 * n) (ptrials_events nt T k (SIZE st) (reads st) n)).
Proof.
  revert min st. induction n as [|n IH]; intros min st H.
  - simpl. now rewrite advance_0_nil.
  - cbn [for_loop]. rewrite timeitp_sample_ok by assumption. cbn [bind].
    rewrite IH by (now rewrite SIZE_advance).
    rewrite SIZE_advance, reads_advance, advance_advance.
    rewrite elapsed_times_cons, ptrials_events_cons. cbn [fold_left].
    replace (2 + 2 * n)%nat with (2 * S n)%nat by lia. reflexivity.
Qed.

Lemma timeitp_ok (nt : nat -> Z) (T : Z) (k : kernel) (st : state) :
  ull_rem (SIZE st) (to_ull T) = 0 ->
  timeitp clock nt T k st
  = Done (advance st (2 * SAMPLES) (timeitp_events clock nt T k (SIZE st) (reads st))).
Proof.
  intros H. unfold timeitp. rewrite timeitp_samples_ok by assumption.
  cbn [bind]. rewrite emit_advance, advance_advance, SIZE_advance.
  f_equal.
Qed.

Lemma timeitp_abort (nt : nat -> Z) (T : Z) (k : kernel) (st : state) :
  ull_rem (SIZE st) (to_ull T) <> 0 ->
  timeitp clock nt T k st = Aborted (emit (EvAssert false) st).
Proof.
  intros H. unfold timeitp, SAMPLES. cbn [for_loop].
  now rewrite timeitp_sample_abort.
Qed.

End PTraceLemmas.

(** ** Comparison of doubles through [rank] *)

Lemma compare_rank (x y : double) :
  is_nan x = false -> is_nan y = false ->
  exists c, SFcompare x y = Some c
    /\ (c = Lt <-> lex_lt (rank x) (rank y))
    /\ (c = Gt <-> lex_lt (rank y) (rank x)).
Proof.
  intros Hx Hy.
  destruct x as [sx|sx| |sx mx ex], y as [sy|sy| |sy my ey];
    try discriminate; cbn [SFcompare];
    try (destruct sx); try (destruct sy);
    try (eexists; split; [reflexivity|];
         unfold lex_lt; cbn; split; split; intros;
         (discriminate || reflexivity || lia)).
  - exists (match ex ?= ey with
            | Lt => Gt | Gt => Lt
            | Eq => CompOpp (Pos.compare_cont Eq mx my) end).
    split; [reflexivity|].
    change (Pos.compare_cont Eq mx my) with (Pos.compare mx my).
    unfold lex_lt; cbn.
    destruct (Z.compare_spec ex ey); [destruct (Pos.compare_spec mx my)| |];
      cbn; split; split; intros; (discriminate || reflexivity || lia).
  - exists (match ex ?= ey with
            | Lt => Lt | Gt => Gt
            | Eq => Pos.compare_cont Eq mx my end).
    split; [reflexivity|].
    change (Pos.compare_cont Eq mx my) with (Pos.compare mx my).
    unfold lex_lt; cbn.
    destruct (Z.compare_spec ex ey); [destruct (Pos.compare_spec mx my)| |];
      cbn; split; split; intros; (discriminate || reflexivity || lia).
Qed.

Lemma lex_le_not_lt (a b : Z * Z * Z) : lex_le a b <-> ~ lex_lt b a.
Proof. unfold lex_le, lex_lt. lia. Qed.

Lemma lex_le_trans (a b c : Z * Z * Z) : lex_le a b -> lex_le b c -> lex_le a c.
Proof. unfold lex_le. lia. Qed.

Lemma lex_le_refl (a : Z * Z * Z) : lex_le a a.
Proof. unfold lex_le. lia. Qed.

Lemma lex_lt_le (a b : Z * Z * Z) : lex_lt a b -> lex_le a b.
Proof. unfold lex_le, lex_lt. lia. Qed.

Lemma lex_le_antisym (a b : Z * Z * Z) : lex_le a b -> lex_le b a -> a = b.
Proof.
  destruct a as [[a1 a2] a3], b as [[b1 b2] b3]. unfold lex_le; cbn.
  intros H1 H2. repeat f_equal; lia.
Qed.

Lemma ltb_rank (x y : double) :
  is_nan x = false -> is_nan y = false ->
  (ltb x y = true <-> lex_lt (rank x) (rank y)).
Proof.
  intros Hx Hy. destruct (compare_rank x y Hx Hy) as (c & Hc & HLt & HGt).
  unfold ltb, SFltb. rewrite Hc. rewrite <- HLt.
  destruct c; split; intros; (discriminate || reflexivity).
Qed.

Lemma leb_rank (x y : double) :
  is_nan x = false -> is_nan y = false ->
  (leb x y = true <-> lex_le (rank x) (rank y)).
Proof.
  intros Hx Hy. destruct (compare_rank x y Hx Hy) as (c & Hc & HLt & HGt).
  unfold leb, SFleb. rewrite Hc, lex_le_not_lt, <- HGt.
  destruct c; split; intros; (discriminate || reflexivity || congruence).
Qed.

Lemma ltb_not_nan (x y : double) :
  ltb x y = true -> is_nan x = false /\ is_nan y = false.
Proof.
  unfold ltb, SFltb. destruct x, y; cbn; intros; (discriminate || auto).
Qed.

(** Two non-negative doubles with the same key are the same double. *)
Lemma rank_inj_nonneg (x y : double) :
  nonneg x -> nonneg y -> rank x = rank y -> x = y.
Proof.
  destruct x as [sx|sx| |sx mx ex], y as [sy|sy| |sy my ey]; cbn;
    intros Hx Hy H; subst; try contradiction; try discriminate; try reflexivity.
  injection H as -> ->. reflexivity.
Qed.

(** ** The reduction by minimum *)

Lemma keep_min_spec (m t : double) :
  is_nan m = false ->
  is_nan (keep_min m t) = false
  /\ (keep_min m t = m \/ keep_min m t = t)
  /\ lex_le (rank (keep_min m t)) (rank m)
  /\ (is_nan t = false -> lex_le (rank (keep_min m t)) (rank t)).
Proof.
  intros Hm. unfold keep_min. destruct (ltb t m) eqn:E.
  - destruct (ltb_not_nan _ _ E) as [Ht _].
    repeat split; auto using lex_le_refl.
    apply lex_lt_le. now apply ltb_rank.
  - repeat split; auto using lex_le_refl.
    intros Ht. apply lex_le_not_lt. intros H.
    apply (ltb_rank t m Ht Hm) in H. congruence.
Qed.

Lemma fold_keep_min_spec (l : list double) (m0 : double) :
  is_nan m0 = false ->
  is_nan (fold_left keep_min l m0) = false
  /\ (fold_left keep_min l m0 = m0 \/ In (fold_left keep_min l m0) l)
  /\ lex_le (rank (fold_left keep_min l m0)) (rank m0)
  /\ (forall t, In t l -> is_nan t = false ->
                lex_le (rank (fold_left keep_min l m0)) (rank t)).
Proof.
  revert m0. induction l as [|t l IH]; intros m0 Hm; cbn [fold_left].
  - repeat split; auto using lex_le_refl. intros t [].
  - destruct (keep_min_spec m0 t Hm) as (Hn & Hsel & Hle & Hlt).
    destruct (IH _ Hn) as (Hn' & Hsel' & Hle' & Hall).
    repeat split; auto.
    + destruct Hsel' as [-> | Hin]; [|right; now right].
      destruct Hsel as [-> | ->]; [now left | right; now left].
    + eauto using lex_le_trans.
    + intros u [<- | Hu] Hnu; [|now apply Hall].
      eauto using lex_le_trans.
Qed.

Lemma min_elapsed_lower_bound (l : list double) :
  forallb (fun t => is_nan t || leb (min_elapsed l) t) l = true.
Proof.
  apply forallb_forall. intros t Ht.
  destruct (is_nan t) eqn:E; [reflexivity|]. cbn [orb].
  destruct (fold_keep_min_spec l INFINITY eq_refl) as (Hn & _ & _ & Hall).
  apply leb_rank; auto.
Qed.

Lemma min_elapsed_selected (l : list double) :
  In (min_elapsed l) l \/ min_elapsed l = INFINITY.
Proof.
  destruct (fold_keep_min_spec l INFINITY eq_refl) as (_ & [H|H] & _); auto.
Qed.

(** C1. For every kernel, [timeit] performs [SAMPLES] trials, each being one
    clock reading, [TIMES] consecutive kernel calls over the whole view
    [[0, SIZE)], and one more clock reading; the elapsed time of a trial is
    the difference of its two readings; the trials are reduced by minimum
    and the reported bandwidth is [to_bw (SIZE * TIMES)] of that minimum,
    in units of 2^30 bytes per second.  For the elapsed times
    [0.9; 0.5; 0.7; 0.6; 0.8] the minimum selected is [0.5]. *)
Theorem timeit_sampling_protocol (clock : nat -> double) (k : kernel) (st : state) :
  let r := reads st in
  let samples :=
    map (fun i => sub (clock (S (r + 2 * i)%nat)) (clock (r + 2 * i)%nat)) (seq 0 SAMPLES) in
  let best := min_elapsed samples in
  trace (timeit clock k st)
  = trace st
    ++ List.concat
         (map (fun i => [EvClock (r + 2 * i)%nat]
                        ++ repeat (EvKernel k 0 (SIZE st)) TIMES
                        ++ [EvClock (S (r + 2 * i)%nat)])
              (seq 0 SAMPLES))
    ++ [EvReport false (kernel_name k)
          (to_bw (ull_mul (SIZE st) (Z.of_nat TIMES)) best)]
  /\ List.length samples = SAMPLES
  /\ (In best samples \/ best = INFINITY)
  /\ forallb (fun t => is_nan t || leb best t) samples = true
  /\ to_bw (ull_mul (SIZE st) (Z.of_nat TIMES)) best
     = div (div (of_Z (ull_mul (SIZE st) (Z.of_nat TIMES))) (of_Z (2 ^ 30))) best
  /\ min_elapsed [literal 9 10; literal 5 10; literal 7 10; literal 6 10; literal 8 10]
     = literal 5 10.
Proof.
  intros r samples best.
  split; [|split; [|split; [|split; [|split]]]].
  - rewrite timeit_advance, trace_advance. reflexivity.
  - unfold samples. now rewrite length_map, length_seq.
  - apply min_elapsed_selected.
  - apply min_elapsed_lower_bound.
  - reflexivity.
  - vm_compute. reflexivity.
Qed.

(** ** The work partition *)

Lemma team_size_bounds (T granted : Z) :
  1 <= T -> 1 <= team_size T granted <= T.
Proof. unfold team_size. lia. Qed.

Lemma team_size_full (T granted : Z) :
  1 <= T -> T <= granted -> team_size T granted = T.
Proof. unfold team_size. lia. Qed.

Lemma In_team (T i : Z) : In i (team T) <-> 0 <= i < T.
Proof.
  unfold team. rewrite in_map_iff. split.
  - intros (n & <- & Hn). apply in_seq in Hn. lia.
  - intros H. exists (Z.to_nat i). split; [lia|]. apply in_seq. lia.
Qed.


Lemma chunk_of_exact (T S i : Z) :
  thread_count T -> is_ull S -> 0 <= i < T ->
  chunk_of (ull_div S (to_ull T)) i = (i * (S / T), S / T).
Proof.
  intros HT HS Hi. unfold chunk_of, ull_mul, ull_div.
  rewrite (to_ull_thread_count HT). f_equal.
  rewrite Z.mul_comm. apply to_ull_small.
  unfold is_ull in *. unfold thread_count in HT.
  assert (0 <= S / T) by (apply Z.div_pos; lia).
  assert (T * (S / T) <= S) by (apply Z.mul_div_le; lia).
  split; [nia|]. nia.
Qed.

(** ** Whole passes and [main] *)

Section MainLemmas.

Variable clock : nat -> double.

Lemma single_pass_advance (ks : list kernel) (st : state) :
  fold_left (fun s k => timeit clock k s) ks st
  = advance st (2 * SAMPLES * List.length ks)
      (single_pass_events clock ks (SIZE st) (reads st)).
Proof.
  revert st. induction ks as [|k ks IH]; intros st.
  - cbn. now rewrite advance_0_nil.
  - cbn [fold_left single_pass_events List.length].
    rewrite IH, timeit_advance, advance_advance, SIZE_advance, reads_advance.
    apply advance_eq; [lia | reflexivity].
Qed.

Lemma timefunp_all_ok (nt : nat -> Z) (T : Z) (ks : list kernel) (st : state) :
  ull_rem (SIZE st) (to_ull T) = 0 ->
  timefunp_all clock nt T ks st
  = Done (advance st (2 * SAMPLES * List.length ks)
            (multi_pass_events clock nt T ks (SIZE st) (reads st))).
Proof.
  revert st. induction ks as [|k ks IH]; intros st H.
  - cbn. now rewrite advance_0_nil.
  - cbn [timefunp_all multi_pass_events List.length].
    rewrite timeitp_ok by assumption. cbn [bind].
    rewrite IH by (now rewrite SIZE_advance).
    rewrite advance_advance, SIZE_advance, reads_advance.
    f_equal. apply advance_eq; [lia | reflexivity].
Qed.

End MainLemmas.

(** ** The Active Size of the multi-core pass *)

Lemma PAGE_SIZE_value : PAGE_SIZE = 4096.
Proof. reflexivity. Qed.

Lemma MAX_SIZE_value : MAX_SIZE = 1073741824.
Proof. reflexivity. Qed.

Lemma omp_size_closed_form (T : Z) :
  thread_count T ->
  omp_size T = PAGE_SIZE * T * (MAX_SIZE / (PAGE_SIZE * T))
  /\ 0 <= omp_size T <= MAX_SIZE.
Proof.
  intros HT. pose proof (to_ull_thread_count HT) as HTu.
  unfold thread_count, INT_MAX in HT.
  unfold omp_size, ll_div, ull_mul.
  rewrite HTu, PAGE_SIZE_value, MAX_SIZE_value.
  rewrite (Z.quot_div_nonneg 1073741824 T) by lia.
  rewrite Z.quot_div_nonneg by (try apply Z.div_pos; lia).
  rewrite Z.div_div by lia.
  set (q := 1073741824 / (T * 4096)).
  assert (Hq0 : 0 <= q) by (apply Z.div_pos; lia).
  assert (Hq : (T * 4096) * q <= 1073741824) by (apply Z.mul_div_le; lia).
  assert (Hq1 : q <= 1073741824) by nia.
  replace (1073741824 / (4096 * T)) with q by (unfold q; f_equal; lia).
  rewrite (to_ull_small (z := 4096)) by (unfold is_ull, ULL_MODULUS; lia).
  rewrite (to_ull_small (z := q)) by (unfold is_ull, ULL_MODULUS; lia).
  rewrite (to_ull_small (z := 4096 * q)) by (unfold is_ull, ULL_MODULUS; nia).
  rewrite (to_ull_small (z := 4096 * q * T)) by (unfold is_ull, ULL_MODULUS; nia).
  split; [ring | nia].
Qed.

Lemma omp_size_divisible (T : Z) :
  thread_count T -> ull_rem (omp_size T) (to_ull T) = 0.
Proof.
  intros HT. destruct (omp_size_closed_form HT) as [-> _].
  rewrite (to_ull_thread_count HT). unfold ull_rem, thread_count in *.
  rewrite <- Z.mul_assoc, (Z.mul_comm T), Z.mul_assoc.
  apply Z.mod_mul. lia.
Qed.

Section MainSpec.

Variable clock : nat -> double.

Lemma multi_core_pass_ok (cfg : config) (st : state) :
  thread_count (omp_max_threads cfg) ->
  multi_core_pass clock cfg st
  = Done {| SIZE := omp_size (omp_max_threads cfg);
            reads := (reads st + 2 * SAMPLES * List.length (catalogue cfg))%nat;
            trace := trace st
                     ++ [EvHeader (omp_max_threads cfg);
                         EvMemset 0 (omp_size (omp_max_threads cfg))]
                     ++ multi_pass_events clock (omp_num_threads cfg)
                          (omp_max_threads cfg) (catalogue cfg)
                          (omp_size (omp_max_threads cfg)) (reads st) |}.
Proof.
  intros HT. unfold multi_core_pass.
  rewrite timefunp_all_ok by (cbn; now apply omp_size_divisible).
  f_equal. unfold advance, emit, set_SIZE; cbn [SIZE reads trace].
  f_equal. now rewrite <- !app_assoc.
Qed.

Lemma renice_advance (cfg : config) (st : state) :
  renice cfg st = advance st 0 (renice_events cfg).
Proof.
  unfold renice, renice_events.
  destruct ((nice_result cfg <? 0) && negb (nice_errno cfg =? 0)).
  - now rewrite !emit_advance, advance_advance.
  - now rewrite emit_advance.
Qed.

Lemma single_core_pass_state (cfg : config) :
  fold_left (fun s k => timeit clock k s) (catalogue cfg)
    (emit (EvHeader 1) (renice cfg (emit (EvMemset 0 (SIZE initial_state)) initial_state)))
  = {| SIZE := MAX_SIZE;
       reads := (2 * SAMPLES * List.length (catalogue cfg))%nat;
       trace := single_core_events clock cfg |}.
Proof.
  rewrite single_pass_advance, renice_advance, !emit_advance, !advance_advance.
  unfold advance, single_core_events; cbn [SIZE reads trace initial_state].
  f_equal; cbn [app]; rewrite <- ?app_assoc; reflexivity.
Qed.

Lemma main_ok (cfg : config) :
  (WITH_OPENMP cfg = true -> thread_count (omp_max_threads cfg)) ->
  main clock cfg
  = Done {| SIZE := if WITH_OPENMP cfg then omp_size (omp_max_threads cfg) else MAX_SIZE;
            reads := if WITH_OPENMP cfg
                     then (2 * (2 * SAMPLES * List.length (catalogue cfg)))%nat
                     else (2 * SAMPLES * List.length (catalogue cfg))%nat;
            trace := main_events clock cfg |}.
Proof.
  intros HT. unfold main. rewrite single_core_pass_state.
  unfold main_events. destruct (WITH_OPENMP cfg).
  - rewrite multi_core_pass_ok by auto. cbn [SIZE reads trace].
    f_equal. f_equal. lia.
  - now rewrite app_nil_r.
Qed.

End MainSpec.

(** C3. When the multi-core pass begins, [SIZE] becomes the largest
    multiple of [PAGE_SIZE * T] that does not exceed the capacity
    [MAX_SIZE]; every thread's chunk then has the same length [SIZE / T],
    a multiple of [PAGE_SIZE].  For [T = 4] the result is 1 GiB itself. *)
Theorem omp_size_largest_page_multiple (T : Z) :
  thread_count T ->
  (PAGE_SIZE * T | omp_size T)
  /\ 0 <= omp_size T <= MAX_SIZE
  /\ (forall m, (PAGE_SIZE * T | m) -> m <= MAX_SIZE -> m <= omp_size T)
  /\ (forall i, 0 <= i < T ->
        snd (chunk_of (ull_div (omp_size T) (to_ull T)) i) = omp_size T / T)
  /\ (PAGE_SIZE | omp_size T / T)
  /\ T * (omp_size T / T) = omp_size T
  /\ (forall clock cfg st, omp_max_threads cfg = T ->
        SIZE (final_state (multi_core_pass clock cfg st)) = omp_size T)
  /\ omp_size 4 = MAX_SIZE.
Proof.
  intros HT. destruct (omp_size_closed_form HT) as [Heq Hrange].
  pose proof (to_ull_thread_count HT) as HTu.
  assert (HTpos : 0 < T) by (unfold thread_count in HT; lia).
  assert (HP : 0 < PAGE_SIZE) by reflexivity.
  assert (HPT : 0 < PAGE_SIZE * T) by lia.
  assert (Hdiv : omp_size T / T = PAGE_SIZE * (MAX_SIZE / (PAGE_SIZE * T))).
  { rewrite Heq. rewrite <- Z.mul_assoc, (Z.mul_comm T), Z.mul_assoc.
    apply Z.div_mul. lia. }
  split; [|split; [|split; [|split; [|split; [|split; [|split]]]]]].
  - exists (MAX_SIZE / (PAGE_SIZE * T)). rewrite Heq. ring.
  - exact Hrange.
  - intros m [j ->] Hm. rewrite Heq.
    assert (j <= MAX_SIZE / (PAGE_SIZE * T))
      by (apply Z.div_le_lower_bound; lia).
    nia.
  - intros i Hi. cbn. unfold ull_div. now rewrite HTu.
  - rewrite Hdiv. exists (MAX_SIZE / (PAGE_SIZE * T)). ring.
  - rewrite Hdiv, Heq. ring.
  - intros clock cfg st <-. now rewrite multi_core_pass_ok.
  - reflexivity.
Qed.

Lemma omp_size_largest_page_multiple_witness :
  thread_count 4
  /\ (PAGE_SIZE * 4 | omp_size 4)
  /\ PAGE_SIZE * (omp_size 4 / (PAGE_SIZE * 4) + 1) * 4 > MAX_SIZE.
Proof.
  assert (H : thread_count 4) by (unfold thread_count, INT_MAX; lia).
  split; [exact H|]. split.
  - apply (omp_size_largest_page_multiple H).
  - reflexivity.
Defined.

(** ** The divisibility check of [timeitp] *)

(** C4. In each multi-core trial the divisibility of [SIZE] by the thread
    count is checked first, before the chunk size is computed and any
    kernel runs; when it does not hold the run is aborted at the first
    trial: nothing is measured and nothing is reported.  This holds
    whatever teams the runtime gives the parallel regions. *)
Theorem timeitp_checks_divisibility
        (clock : nat -> double) (nt : nat -> Z) (T : Z) (k : kernel) (st : state) :
  thread_count T ->
  (SIZE st mod T <> 0 ->
     timeitp clock nt T k st = Aborted (emit (EvAssert false) st)
     /\ trace (final_state (timeitp clock nt T k st)) = trace st ++ [EvAssert false]
     /\ forall ks, timefunp_all clock nt T (k :: ks) st
                   = Aborted (emit (EvAssert false) st))
  /\ (SIZE st mod T = 0 ->
      exists st',
        timeitp clock nt T k st = Done st'
        /\ trace st'
           = trace st
             ++ List.concat
                  (map (fun i => [EvAssert true; EvBarrier;
                                  EvClock (reads st + 2 * i)%nat]
                                 ++ region_events
                                      (team_size T (nt (reads st + 2 * i)%nat))
                                      T k (SIZE st)
                                 ++ [EvBarrier; EvClock (S (reads st + 2 * i)%nat)])
                       (seq 0 SAMPLES))
             ++ [EvReport true (kernel_name k)
                   (to_bw (ull_mul (SIZE st) (Z.of_nat TIMES))
                      (min_elapsed (elapsed_times clock (reads st) SAMPLES)))]).
Proof.
  intros HT. pose proof (to_ull_thread_count HT) as HTu. split.
  - intros Hbad.
    assert (Hrem : ull_rem (SIZE st) (to_ull T) <> 0)
      by (unfold ull_rem; now rewrite HTu).
    rewrite timeitp_abort by assumption. repeat split.
    intros ks. cbn [timefunp_all]. now rewrite timeitp_abort by assumption.
  - intros Hgood.
    assert (Hrem : ull_rem (SIZE st) (to_ull T) = 0)
      by (unfold ull_rem; now rewrite HTu).
    eexists. split; [now apply timeitp_ok|].
    rewrite trace_advance. reflexivity.
Qed.

Lemma timeitp_checks_divisibility_witness :
  thread_count 3 /\ SIZE initial_state mod 3 <> 0
  /\ timeitp still_clock (fun _ => 3) 3 read_memory_loop initial_state
     = Aborted (emit (EvAssert false) initial_state).
Proof.
  assert (H : thread_count 3) by (unfold thread_count, INT_MAX; lia).
  assert (H' : SIZE initial_state mod 3 <> 0) by (vm_compute; discriminate).
  split; [exact H|]. split; [exact H'|].
  apply (timeitp_checks_divisibility still_clock (fun _ => 3) read_memory_loop
           initial_state H).
  exact H'.
Defined.

(** ** Bytes moved by a trial *)




(** ** Invariants of the events of a run *)

Section EventInvariant.

Variable P : event -> Prop.

(** [P] holds of every event other than a kernel call, a [memset] or a
    failed [assert]. *)
Hypothesis P_neutral :
  forall e, is_kernel e = false -> is_memset e = false ->
            e <> EvAssert false -> P e.

Variable clock : nat -> double.

Lemma Forall_concat_map {A : Type} (f : A -> list event) (l : list A) :
  (forall x, In x l -> Forall P (f x)) -> Forall P (List.concat (map f l)).
Proof.
  induction l as [|x l IH]; intros H; cbn [map List.concat].
  - constructor.
  - apply Forall_app. split; [apply H; now left|].
    apply IH. intros y Hy. apply H. now right.
Qed.

Lemma Forall_repeat_event (e : event) (n : nat) : P e -> Forall P (repeat e n).
Proof. intros H. induction n; cbn; constructor; auto. Qed.

Lemma neutral_clock (n : nat) : P (EvClock n).
Proof. apply P_neutral; (reflexivity || discriminate). Qed.

Lemma neutral_report (o : bool) (s : string) (b : double) : P (EvReport o s b).
Proof. apply P_neutral; (reflexivity || discriminate). Qed.

Lemma timeit_events_Forall (k : kernel) (size : Z) (r : nat) :
  P (EvKernel k 0 size) -> Forall P (timeit_events clock k size r).
Proof.
  intros Hk. unfold timeit_events, trials_events, trial_events.
  apply Forall_app. split.
  - apply Forall_concat_map. intros i _.
    repeat (apply Forall_app; split); try (constructor; [|constructor]);
      auto using neutral_clock, Forall_repeat_event.
  - constructor; [apply neutral_report | constructor].
Qed.

Lemma timeitp_events_Forall (nt : nat -> Z) (T : Z) (k : kernel) (size : Z) (r : nat) :
  (forall granted tid, In tid (team (team_size T granted)) ->
     P (EvKernel k (fst (chunk_of (ull_div size (to_ull T)) tid))
                   (snd (chunk_of (ull_div size (to_ull T)) tid)))) ->
  Forall P (timeitp_events clock nt T k size r).
Proof.
  intros Hk. unfold timeitp_events, ptrials_events, ptrial_events, region_events.
  apply Forall_app. split.
  - apply Forall_concat_map. intros i _.
    apply Forall_app. split; [|apply Forall_app; split].
    + repeat constructor; apply P_neutral; (reflexivity || discriminate).
    + apply Forall_concat_map. intros tid Htid.
      apply Forall_repeat_event. now apply Hk with (granted := nt (r + 2 * i)%nat).
    + repeat constructor; apply P_neutral; (reflexivity || discriminate).
  - constructor; [apply neutral_report | constructor].
Qed.

Lemma single_pass_events_Forall (ks : list kernel) (size : Z) (r : nat) :
  (forall k, P (EvKernel k 0 size)) ->
  Forall P (single_pass_events clock ks size r).
Proof.
  intros Hk. revert r. induction ks as [|k ks IH]; intros r;
    cbn [single_pass_events].
  - constructor.
  - apply Forall_app. split; [now apply timeit_events_Forall | apply IH].
Qed.

Lemma multi_pass_events_Forall (nt : nat -> Z) (T : Z) (ks : list kernel)
      (size : Z) (r : nat) :
  (forall k granted tid, In tid (team (team_size T granted)) ->
     P (EvKernel k (fst (chunk_of (ull_div size (to_ull T)) tid))
                   (snd (chunk_of (ull_div size (to_ull T)) tid)))) ->
  Forall P (multi_pass_events clock nt T ks size r).
Proof.
  intros Hk. revert r. induction ks as [|k ks IH]; intros r;
    cbn [multi_pass_events].
  - constructor.
  - apply Forall_app. split; [apply timeitp_events_Forall; eauto | apply IH].
Qed.

Lemma renice_events_Forall (cfg : config) : Forall P (renice_events cfg).
Proof.
  unfold renice_events.
  destruct ((nice_result cfg <? 0) && negb (nice_errno cfg =? 0));
    repeat constructor; apply P_neutral; (reflexivity || discriminate).
Qed.

Lemma main_events_Forall (cfg : config) :
  P (EvMemset 0 MAX_SIZE) ->
  (forall k, P (EvKernel k 0 MAX_SIZE)) ->
  (WITH_OPENMP cfg = true ->
     P (EvMemset 0 (omp_size (omp_max_threads cfg)))
     /\ forall k granted tid,
          In tid (team (team_size (omp_max_threads cfg) granted)) ->
          P (EvKernel k
               (fst (chunk_of (ull_div (omp_size (omp_max_threads cfg))
                                 (to_ull (omp_max_threads cfg))) tid))
               (snd (chunk_of (ull_div (omp_size (omp_max_threads cfg))
                                 (to_ull (omp_max_threads cfg))) tid)))) ->
  Forall P (main_events clock cfg).
Proof.
  intros Hm Hk Hmulti. unfold main_events.
  apply Forall_app. split.
  - unfold single_core_events.
    apply Forall_app. split; [repeat constructor; exact Hm|].
    apply Forall_app. split; [apply renice_events_Forall|].
    apply Forall_app. split; [|now apply single_pass_events_Forall].
    repeat constructor. apply P_neutral; (reflexivity || discriminate).
  - destruct (WITH_OPENMP cfg); [|constructor].
    destruct (Hmulti eq_refl) as [Hm' Hk']. unfold multi_core_events.
    apply Forall_app. split.
    + constructor; [apply P_neutral; (reflexivity || discriminate)|].
      constructor; [exact Hm' | constructor].
    + now apply multi_pass_events_Forall.
Qed.

End EventInvariant.

Lemma main_events_expected (clock : nat -> double) (cfg : config) :
  (WITH_OPENMP cfg = true -> thread_count (omp_max_threads cfg)) ->
  Forall (expected_event (omp_max_threads cfg)) (main_events clock cfg).
Proof.
  intros HT. apply main_events_Forall.
  - intros [] ; cbn; intros; (exact I || discriminate || congruence || idtac).
    destruct ok; [reflexivity | congruence].
  - cbn. auto.
  - intros k. cbn. auto.
  - intros Homp. split; [cbn; auto|].
    intros k granted tid Htid. cbn [expected_event]. right. exists tid.
    apply In_team in Htid. specialize (HT Homp). unfold thread_count in HT.
    pose proof (team_size_bounds granted (proj1 HT)).
    split; [lia|].
    now destruct (chunk_of _ tid).
Qed.

Lemma four_threads_ok : WITH_OPENMP four_threads = true -> thread_count (omp_max_threads four_threads).
Proof. intros _. unfold thread_count, INT_MAX. cbn. lia. Qed.

(** ** Buffer bounds *)

Lemma chunk_within_array (T tid : Z) :
  thread_count T -> 0 <= tid < T ->
  0 <= fst (chunk_of (ull_div (omp_size T) (to_ull T)) tid)
  /\ 0 <= snd (chunk_of (ull_div (omp_size T) (to_ull T)) tid)
  /\ fst (chunk_of (ull_div (omp_size T) (to_ull T)) tid)
     + snd (chunk_of (ull_div (omp_size T) (to_ull T)) tid) <= MAX_SIZE.
Proof.
  intros HT Htid. destruct (omp_size_closed_form HT) as [_ Hrange].
  assert (HS : is_ull (omp_size T)).
  { unfold is_ull, ULL_MODULUS. rewrite MAX_SIZE_value in Hrange. lia. }
  rewrite (chunk_of_exact HT HS Htid). cbn [fst snd].
  pose proof (omp_size_divisible HT) as Hdiv.
  unfold ull_rem in Hdiv. rewrite (to_ull_thread_count HT) in Hdiv.
  unfold thread_count in HT.
  assert (Hc : omp_size T = T * (omp_size T / T)) by (apply Z.div_exact; lia).
  assert (0 <= omp_size T / T) by (apply Z.div_pos; lia).
  nia.
Qed.

(** C9. Every kernel call of a run, in either pass, is handed a byte
    range that lies inside [array]: the single-thread pass passes
    [[0, SIZE)] with [SIZE <= MAX_SIZE]; in the multi-core pass the chunks
    satisfy [chunk_size * T = SIZE <= MAX_SIZE]. *)
Theorem kernel_ranges_within_array (clock : nat -> double) (cfg : config) :
  (WITH_OPENMP cfg = true -> thread_count (omp_max_threads cfg)) ->
  Forall within_array (trace (final_state (main clock cfg)))
  /\ 0 <= SIZE initial_state <= MAX_SIZE
  /\ (WITH_OPENMP cfg = true ->
      ull_div (omp_size (omp_max_threads cfg)) (to_ull (omp_max_threads cfg))
        * omp_max_threads cfg = omp_size (omp_max_threads cfg)
      /\ omp_size (omp_max_threads cfg) <= MAX_SIZE).
Proof.
  intros HT. split; [|split].
  - rewrite main_ok by assumption. cbn [final_state trace].
    apply main_events_Forall.
    + intros []; cbn; intros; (exact I || discriminate).
    + exact I.
    + intros k. cbn [within_array]. rewrite MAX_SIZE_value. lia.
    + intros Homp. split; [exact I|]. intros k granted tid Htid.
      apply In_team in Htid. cbn [within_array].
      specialize (HT Homp).
      pose proof (team_size_bounds granted (proj1 HT)).
      apply chunk_within_array; [exact HT | lia].
  - cbn [SIZE initial_state]. rewrite MAX_SIZE_value. lia.
  - intros Homp. specialize (HT Homp).
    destruct (omp_size_closed_form HT) as [_ Hrange].
    pose proof (omp_size_divisible HT) as Hdiv.
    unfold ull_rem in Hdiv. unfold ull_div.
    rewrite (to_ull_thread_count HT) in *. split; [|lia].
    unfold thread_count in HT. rewrite Z.mul_comm.
    symmetry. apply Z.div_exact; lia.
Qed.

Lemma kernel_ranges_within_array_witness :
  (WITH_OPENMP four_threads = true -> thread_count (omp_max_threads four_threads))
  /\ Forall within_array (trace (final_state (main still_clock four_threads))).
Proof.
  split; [exact four_threads_ok|].
  apply (kernel_ranges_within_array still_clock four_threads four_threads_ok).
Defined.

(** ** The assert cannot fail in [main] *)

Lemma expected_assert (T : Z) (e : event) :
  expected_event T e ->
  match e with EvAssert ok => ok | _ => true end = true.
Proof. destruct e; cbn; auto. Qed.

(** C8. For every thread count [T >= 1] the value [SIZE] has whenever
    [timeitp] runs is divisible by [T]: the assert never fails, [main]
    runs to completion, and [timeitp] completes from every state holding
    the recomputed [SIZE]. *)
Theorem multi_core_assert_never_fails (clock : nat -> double) (cfg : config) :
  thread_count (omp_max_threads cfg) ->
  ull_rem (omp_size (omp_max_threads cfg)) (to_ull (omp_max_threads cfg)) = 0
  /\ omp_size (omp_max_threads cfg) mod omp_max_threads cfg = 0
  /\ (exists st, main clock cfg = Done st /\ asserts_hold (trace st) = true)
  /\ (forall nt k st, SIZE st = omp_size (omp_max_threads cfg) ->
        exists st', timeitp clock nt (omp_max_threads cfg) k st = Done st').
Proof.
  intros HT. pose proof (omp_size_divisible HT) as Hdiv.
  split; [exact Hdiv|]. split; [|split].
  - unfold ull_rem in Hdiv. now rewrite (to_ull_thread_count HT) in Hdiv.
  - eexists. split; [apply main_ok; auto|]. cbn [trace].
    unfold asserts_hold. apply forallb_forall. intros e He.
    apply expected_assert with (T := omp_max_threads cfg).
    pose proof (main_events_expected clock cfg (fun _ => HT)) as H.
    rewrite Forall_forall in H. now apply H.
  - intros nt k st Hst. eexists. apply timeitp_ok. now rewrite Hst.
Qed.

Lemma multi_core_assert_never_fails_witness :
  thread_count (omp_max_threads four_threads)
  /\ omp_size (omp_max_threads four_threads) mod omp_max_threads four_threads = 0.
Proof.
  assert (H : thread_count (omp_max_threads four_threads))
    by (apply four_threads_ok; reflexivity).
  split; [exact H|].
  apply (multi_core_assert_never_fails still_clock four_threads H).
Defined.

(** ** Initialisation of the buffer *)

Lemma memset_count_app (l1 l2 : list event) :
  memset_count (l1 ++ l2) = (memset_count l1 + memset_count l2)%nat.
Proof. unfold memset_count. now rewrite filter_app, length_app. Qed.

Lemma memset_count_none (l : list event) :
  Forall (fun e => is_memset e = false) l -> memset_count l = 0%nat.
Proof.
  unfold memset_count. induction 1 as [|e l He _ IH]; [reflexivity|].
  cbn [filter]. now rewrite He.
Qed.

Lemma passes_do_not_memset (clock : nat -> double) (nt : nat -> Z) (T : Z)
      (ks : list kernel) (size : Z) (r : nat) :
  memset_count (single_pass_events clock ks size r) = 0%nat
  /\ memset_count (multi_pass_events clock nt T ks size r) = 0%nat.
Proof.
  split; apply memset_count_none.
  - apply single_pass_events_Forall; auto.
  - apply multi_pass_events_Forall; auto.
Qed.

Lemma renice_does_not_memset (cfg : config) :
  memset_count (renice_events cfg) = 0%nat.
Proof.
  apply memset_count_none, renice_events_Forall; auto.
Qed.

Lemma main_events_memset_count (clock : nat -> double) (cfg : config) :
  memset_count (main_events clock cfg)
  = if WITH_OPENMP cfg then 2%nat else 1%nat.
Proof.
  unfold main_events, single_core_events, multi_core_events.
  rewrite !memset_count_app, renice_does_not_memset.
  rewrite (proj1 (passes_do_not_memset clock (fun _ => 0) 0 _ _ _)).
  destruct (WITH_OPENMP cfg); [|reflexivity].
  rewrite memset_count_app, (proj2 (passes_do_not_memset clock _ _ _ _ _)).
  reflexivity.
Qed.

(** C7, as stated, fails in the multi-core build: on four threads the
    buffer is initialised twice, not once. *)
Lemma buffer_initialised_twice_on_four_threads :
  ~ memset_count (trace (final_state (main still_clock four_threads))) = 1%nat.
Proof.
  rewrite main_ok by exact four_threads_ok. cbn [final_state trace].
  rewrite main_events_memset_count. cbn. discriminate.
Qed.

(** C7, amended. [main] initialises the buffer first of all, so before
    every kernel call; the single-core build does so once, and the
    multi-core build once more, after [SIZE] is recomputed and before the
    first multi-core trial. *)
Theorem buffer_initialised_before_kernels (clock : nat -> double) (cfg : config) :
  (WITH_OPENMP cfg = true -> thread_count (omp_max_threads cfg)) ->
  exists st rest,
    main clock cfg = Done st
    /\ trace st = EvMemset 0 MAX_SIZE :: rest
    /\ memset_count (trace st) = (if WITH_OPENMP cfg then 2%nat else 1%nat)
    /\ (forall pre e post, trace st = pre ++ e :: post -> is_kernel e = true ->
          (1 <= memset_count pre)%nat)
    /\ trace st
       = single_core_events clock cfg
         ++ (if WITH_OPENMP cfg
             then [EvHeader (omp_max_threads cfg);
                   EvMemset 0 (omp_size (omp_max_threads cfg))]
                  ++ multi_pass_events clock (omp_num_threads cfg)
                       (omp_max_threads cfg) (catalogue cfg)
                       (omp_size (omp_max_threads cfg))
                       (2 * SAMPLES * List.length (catalogue cfg))
             else [])
    /\ memset_count (single_core_events clock cfg) = 1%nat.
Proof.
  intros HT. eexists. eexists.
  split; [apply main_ok; exact HT|]. cbn [trace].
  split; [reflexivity|]. split; [apply main_events_memset_count|].
  split; [|split].
  - intros pre e post Heq Hk. destruct pre as [|p pre].
    + cbn in Heq. unfold main_events, single_core_events in Heq.
      cbn [app] in Heq. injection Heq as <- _. discriminate.
    + unfold main_events, single_core_events in Heq.
      cbn [app] in Heq. injection Heq as <- _.
      unfold memset_count. cbn. lia.
  - reflexivity.
  - unfold single_core_events.
    rewrite !memset_count_app, renice_does_not_memset.
    now rewrite (proj1 (passes_do_not_memset clock (fun _ => 0) 0 _ _ _)).
Qed.

Lemma buffer_initialised_before_kernels_witness :
  (WITH_OPENMP four_threads = true -> thread_count (omp_max_threads four_threads))
  /\ exists st rest,
       main still_clock four_threads = Done st
       /\ trace st = EvMemset 0 MAX_SIZE :: rest
       /\ memset_count (trace st) = 2%nat.
Proof.
  split; [exact four_threads_ok|].
  destruct (buffer_initialised_before_kernels still_clock four_threads four_threads_ok)
    as (st & rest & H1 & H2 & H3 & _).
  exists st, rest. auto.
Defined.

Unset Implicit Arguments.

(** ** Number of binary digits *)

Lemma digits2_pos_size (p : positive) : digits2_pos p = Pos.size p.
Proof. induction p; cbn; congruence. Qed.

Lemma Zdigits2_bounds (m : Z) :
  0 < m -> 0 < Zdigits2 m /\ 2 ^ (Zdigits2 m - 1) <= m < 2 ^ Zdigits2 m.
Proof.
  destruct m as [|p|p]; try lia. intros _. cbn [Zdigits2].
  rewrite digits2_pos_size. split; [lia|].
  pose proof (Pos.size_gt p) as Hgt. pose proof (Pos.size_le p) as Hle.
  assert (Hgt' : Zpos p < 2 ^ Zpos (Pos.size p)).
  { change 2 with (Zpos 2). rewrite <- Pos2Z.inj_pow. lia. }
  assert (Hle' : 2 ^ Zpos (Pos.size p) <= 2 * Zpos p).
  { change 2 with (Zpos 2) at 1. rewrite <- Pos2Z.inj_pow. lia. }
  split; [|exact Hgt'].
  replace (Zpos (Pos.size p)) with (Z.succ (Zpos (Pos.size p) - 1)) in Hle' by lia.
  rewrite Z.pow_succ_r in Hle' by lia. lia.
Qed.

Lemma Zdigits2_nonneg (m : Z) : 0 <= m -> 0 <= Zdigits2 m.
Proof.
  intros H. destruct (Z.eq_dec m 0) as [->|]; [cbn; lia|].
  pose proof (Zdigits2_bounds m). lia.
Qed.

Lemma Zdigits2_le (m d : Z) : 0 <= d -> 0 <= m < 2 ^ d -> Zdigits2 m <= d.
Proof.
  intros Hd [Hm0 Hm]. destruct (Z.eq_dec m 0) as [->|]; [cbn; lia|].
  destruct (Zdigits2_bounds m) as (Hpos & Hlo & _); [lia|].
  destruct (Z_lt_le_dec d (Zdigits2 m)) as [Hlt|]; [|lia].
  assert (2 ^ d <= 2 ^ (Zdigits2 m - 1)) by (apply Z.pow_le_mono_r; lia).
  lia.
Qed.

Lemma Zdigits2_ge (m d : Z) : 2 ^ d <= m -> d < Zdigits2 m.
Proof.
  intros Hm.
  destruct (Z_lt_le_dec d 0) as [Hneg|Hd].
  - assert (0 <= Zdigits2 m); [|lia].
    apply Zdigits2_nonneg. rewrite Z.pow_neg_r in Hm by lia. lia.
  - assert (0 < 2 ^ d) by (apply Z.pow_pos_nonneg; lia).
    destruct (Zdigits2_bounds m) as (Hpos & _ & Hhi); [lia|].
    destruct (Z_lt_le_dec d (Zdigits2 m)) as [|Hle]; [lia|].
    assert (2 ^ Zdigits2 m <= 2 ^ d) by (apply Z.pow_le_mono_r; lia).
    lia.
Qed.

(** ** Right shifts with sticky bits *)

Lemma iter_pos_nat {A : Type} (f : A -> A) (p : positive) (x : A) :
  SpecFloat.iter_pos f p x = Nat.iter (Pos.to_nat p) f x.
Proof.
  revert x. induction p as [p IH|p IH|]; intros x; cbn [SpecFloat.iter_pos].
  - rewrite !IH, Pos2Nat.inj_xI, Nat.iter_succ_r.
    replace (2 * Pos.to_nat p)%nat with (Pos.to_nat p + Pos.to_nat p)%nat by lia.
    now rewrite Nat.iter_add.
  - rewrite !IH, Pos2Nat.inj_xO.
    replace (2 * Pos.to_nat p)%nat with (Pos.to_nat p + Pos.to_nat p)%nat by lia.
    now rewrite Nat.iter_add.
  - reflexivity.
Qed.

Lemma loc_of_record_of_loc (m : Z) (l : location) :
  loc_of_shr_record (shr_record_of_loc m l) = l /\ shr_m (shr_record_of_loc m l) = m.
Proof. destruct l as [|[]]; split; reflexivity. Qed.

Lemma located_bounds (t : R) (m : Z) (l : location) :
  located t m l -> (IZR m <= t < IZR m + 1)%R.
Proof. destruct l as [|[]]; cbn; intros; lra. Qed.

Lemma shr_1_located (t : R) (mrs : shr_record) :
  0 <= shr_m mrs ->
  located t (shr_m mrs) (loc_of_shr_record mrs) ->
  shr_m (shr_1 mrs) = shr_m mrs / 2
  /\ located (t / 2) (shr_m (shr_1 mrs)) (loc_of_shr_record (shr_1 mrs)).
Proof.
  destruct mrs as [m r s]. cbn [shr_m]. intros Hm Hloc.
  destruct m as [|p|p]; [| |lia].
  - destruct r, s; cbn in *; split; try reflexivity; lra.
  - destruct p as [p|p|].
    + assert (E : IZR (Zpos p~1) = (2 * IZR (Zpos p) + 1)%R).
      { change (Zpos p~1) with (2 * Zpos p + 1). now rewrite plus_IZR, mult_IZR. }
      assert (D : Zpos p~1 / 2 = Zpos p).
      { change (Zpos p~1) with (2 * Zpos p + 1).
        rewrite Z.mul_comm, Z.div_add_l by lia. reflexivity. }
      cbn [shr_1 shr_m]. split; [now rewrite D|].
      destruct r, s; cbn [orb loc_of_shr_record located] in *; lra.
    + assert (E : IZR (Zpos p~0) = (2 * IZR (Zpos p))%R).
      { change (Zpos p~0) with (2 * Zpos p). now rewrite mult_IZR. }
      assert (D : Zpos p~0 / 2 = Zpos p).
      { change (Zpos p~0) with (2 * Zpos p). rewrite Z.mul_comm. now rewrite Z.div_mul by lia. }
      cbn [shr_1 shr_m]. split; [now rewrite D|].
      destruct r, s; cbn [orb loc_of_shr_record located] in *; lra.
    + cbn [shr_1 shr_m]. split; [reflexivity|].
      destruct r, s; cbn [orb loc_of_shr_record located] in *; lra.
Qed.

(** ** Powers of two *)

Lemma bpow_pos (e : Z) : (0 < bpow e)%R.
Proof. apply powerRZ_lt. lra. Qed.

Lemma bpow_add (a b : Z) : bpow (a + b) = (bpow a * bpow b)%R.
Proof. apply powerRZ_add. lra. Qed.

Lemma bpow_IZR (e : Z) : 0 <= e -> bpow e = IZR (2 ^ e).
Proof.
  intros He. unfold bpow. rewrite <- (Z2Nat.id e) by assumption.
  now rewrite <- pow_powerRZ, pow_IZR.
Qed.

Lemma bpow_ge_1 (e : Z) : 0 <= e -> (1 <= bpow e)%R.
Proof.
  intros He. rewrite bpow_IZR by assumption. apply IZR_le.
  assert (0 < 2 ^ e) by (apply Z.pow_pos_nonneg; lia). lia.
Qed.

Lemma bpow_le (a b : Z) : a <= b -> (bpow a <= bpow b)%R.
Proof.
  intros H. replace b with (a + (b - a)) by lia. rewrite bpow_add.
  pose proof (bpow_pos a).
  assert (1 <= bpow (b - a))%R by (apply bpow_ge_1; lia). nra.
Qed.

Lemma bpow_succ (a : Z) : bpow (a + 1) = (2 * bpow a)%R.
Proof.
  rewrite bpow_add. replace (bpow 1) with 2%R; [lra|].
  symmetry. exact (powerRZ_1 2).
Qed.

Lemma bpow_lt (a b : Z) : a < b -> (bpow a < bpow b)%R.
Proof.
  intros H. assert (Hle : (bpow (a + 1) <= bpow b)%R) by (apply bpow_le; lia).
  rewrite bpow_succ in Hle. pose proof (bpow_pos a). lra.
Qed.

Lemma div_bpow_add (x : R) (e n : Z) :
  (x / bpow (e + n) = x / bpow e / bpow n)%R.
Proof.
  rewrite bpow_add. pose proof (bpow_pos e). pose proof (bpow_pos n).
  field. lra.
Qed.

(** ** Iterated shifts keep the location *)

Lemma shr_iter_located (n : nat) (t : R) (mrs : shr_record) :
  0 <= shr_m mrs ->
  located t (shr_m mrs) (loc_of_shr_record mrs) ->
  0 <= shr_m (Nat.iter n shr_1 mrs)
  /\ shr_m (Nat.iter n shr_1 mrs) = shr_m mrs / 2 ^ Z.of_nat n
  /\ located (t / bpow (Z.of_nat n)) (shr_m (Nat.iter n shr_1 mrs))
       (loc_of_shr_record (Nat.iter n shr_1 mrs)).
Proof.
  intros Hm Hloc. induction n as [|n (IH0 & IHm & IHl)].
  - cbn [Nat.iter Z.of_nat]. rewrite Z.pow_0_r, Z.div_1_r.
    unfold bpow; cbn. rewrite Rdiv_1_r. auto.
  - rewrite Nat.iter_succ.
    destruct (shr_1_located (t / bpow (Z.of_nat n))%R _ IH0 IHl) as [Hm' Hl'].
    rewrite Nat2Z.inj_succ, <- Z.add_1_r.
    split; [|split].
    + rewrite Hm'. apply Z.div_pos; lia.
    + rewrite Hm', IHm, Z.pow_add_r, Z.pow_1_r by lia.
      rewrite Z.div_div; try lia.
    + rewrite div_bpow_add.
      replace (bpow 1) with 2%R by (symmetry; exact (powerRZ_1 2)).
      exact Hl'.
Qed.

Lemma shr_located (t : R) (m : Z) (l : location) (e n : Z) :
  0 <= m -> located t m l -> 0 <= n ->
  snd (shr (shr_record_of_loc m l) e n) = e + n
  /\ 0 <= shr_m (fst (shr (shr_record_of_loc m l) e n))
  /\ shr_m (fst (shr (shr_record_of_loc m l) e n)) = m / 2 ^ n
  /\ located (t / bpow n) (shr_m (fst (shr (shr_record_of_loc m l) e n)))
       (loc_of_shr_record (fst (shr (shr_record_of_loc m l) e n))).
Proof.
  intros Hm Hloc Hn.
  destruct (loc_of_record_of_loc m l) as [Hl Hsm].
  destruct n as [|p|p]; [| |lia]; cbn [shr fst snd].
  - rewrite Hl, Hsm, Z.add_0_r, Z.pow_0_r, Z.div_1_r.
    unfold bpow; cbn. rewrite Rdiv_1_r. auto.
  - rewrite iter_pos_nat.
    assert (Hm' : 0 <= shr_m (shr_record_of_loc m l)) by now rewrite Hsm.
    assert (Hloc' : located t (shr_m (shr_record_of_loc m l))
                      (loc_of_shr_record (shr_record_of_loc m l)))
      by now rewrite Hl, Hsm.
    destruct (shr_iter_located (Pos.to_nat p) t _ Hm' Hloc') as (H0 & H1 & H2).
    rewrite positive_nat_Z, Hsm in *. auto.
Qed.

(** ** The exponent function of binary64 *)

Lemma emin_value : emin prec emax = -1074.
Proof. reflexivity. Qed.

Lemma fexp_value (k : Z) : fexp prec emax k = Z.max (k - 53) (-1074).
Proof. reflexivity. Qed.

Lemma pow2_split (a b : Z) : 0 <= a -> 0 <= b -> 2 ^ (a + b) = 2 ^ a * 2 ^ b.
Proof. intros. now apply Z.pow_add_r. Qed.

(** The first shift of [binary_round_aux] yields a normal form. *)
Lemma shr_fexp_normal (x : R) (m e : Z) (l : location) :
  0 <= m -> located (x / bpow e) m l -> e <= fexp prec emax (Zdigits2 m + e) ->
  normal_form (shr_m (fst (shr_fexp prec emax m e l)))
              (snd (shr_fexp prec emax m e l))
  /\ located (x / bpow (snd (shr_fexp prec emax m e l)))
       (shr_m (fst (shr_fexp prec emax m e l)))
       (loc_of_shr_record (fst (shr_fexp prec emax m e l))).
Proof.
  intros Hm Hloc He. unfold shr_fexp.
  set (n := fexp prec emax (Zdigits2 m + e) - e).
  assert (Hn : 0 <= n) by (unfold n; lia).
  destruct (shr_located (x / bpow e) m l e n Hm Hloc Hn) as (He' & H0 & Hm' & Hl').
  rewrite He', Hm' in *. rewrite div_bpow_add. split; [|exact Hl'].
  assert (Hpn : 0 < 2 ^ n) by (apply Z.pow_pos_nonneg; lia).
  unfold normal_form. rewrite emin_value.
  assert (Hfe : e + n = Z.max (Zdigits2 m + e - 53) (-1074))
    by (unfold n; rewrite fexp_value; lia).
  pose proof (Zdigits2_nonneg m Hm) as Hd0.
  split; [split; [exact H0|]|split; [lia|]].
  - apply Z.div_lt_upper_bound; [lia|].
    destruct (Z.eq_dec m 0) as [->|Hm0]; [lia|].
    destruct (Zdigits2_bounds m) as (_ & _ & Hhi); [lia|].
    rewrite <- pow2_split by lia.
    assert (2 ^ Zdigits2 m <= 2 ^ (n + 53)) by (apply Z.pow_le_mono_r; lia).
    lia.
  - destruct (Z.eq_dec (e + n) (-1074)) as [|Hne]; [now left | right].
    assert (Hd : Zdigits2 m = n + 53) by lia.
    assert (Hmpos : 0 < m).
    { destruct (Z.eq_dec m 0) as [->|]; [cbn in Hd; lia | lia]. }
    destruct (Zdigits2_bounds m Hmpos) as (_ & Hlo & _).
    apply Z.div_le_lower_bound; [lia|].
    rewrite <- pow2_split by lia.
    replace (n + 52) with (Zdigits2 m - 1) by lia. exact Hlo.
Qed.

(** ** The renormalisation after rounding *)

Lemma finalize_zero (e : Z) : finalize 0 e = S754_zero false.
Proof.
  unfold finalize, shr_fexp.
  destruct (fexp prec emax (Zdigits2 0 + e) - e) as [|p|p] eqn:E;
    try reflexivity.
  destruct (shr_located 0 0 loc_Exact e (Zpos p)) as (He' & _ & Hm' & _);
    [lia | reflexivity | lia |].
  destruct (shr (shr_record_of_loc 0 loc_Exact) e (Zpos p)) as [mrs e'].
  cbn [fst snd] in *. now rewrite Hm'.
Qed.

Lemma finalize_small (r e : Z) :
  0 < r < 2 ^ 53 -> -1074 <= e -> (e = -1074 \/ 2 ^ 52 <= r) ->
  finalize r e
  = if e <=? 971 then S754_finite false (Z.to_pos r) e else S754_infinity false.
Proof.
  intros Hr He Hn. unfold finalize, shr_fexp.
  assert (Hd : Zdigits2 r <= 53) by (apply Zdigits2_le; lia).
  assert (Hd' : 2 ^ 52 <= r -> 53 <= Zdigits2 r).
  { intros H. pose proof (Zdigits2_ge r 52 H). lia. }
  replace (fexp prec emax (Zdigits2 r + e) - e) with 0
    by (rewrite fexp_value; lia).
  cbn [shr]. destruct (loc_of_record_of_loc r loc_Exact) as [_ ->].
  destruct r as [|p|p]; try lia. reflexivity.
Qed.

Lemma finalize_carry (e : Z) :
  -1074 <= e ->
  finalize (2 ^ 53) e
  = if e + 1 <=? 971 then S754_finite false (Z.to_pos (2 ^ 52)) (e + 1)
    else S754_infinity false.
Proof.
  intros He. unfold finalize, shr_fexp.
  change (Zdigits2 (2 ^ 53)) with 54.
  replace (fexp prec emax (54 + e) - e) with 1 by (rewrite fexp_value; lia).
  reflexivity.
Qed.

(** ** Rounding to nearest, ties to even *)

Lemma rne_bounds (m : Z) (l : location) :
  m <= round_nearest_even m l <= m + 1.
Proof.
  destruct l as [|[]]; cbn [round_nearest_even]; try lia.
  destruct (Z.even m); lia.
Qed.

Lemma rne_monotone (t t' : R) (m m' : Z) (l l' : location) :
  located t m l -> located t' m' l' -> (t <= t')%R ->
  round_nearest_even m l <= round_nearest_even m' l'.
Proof.
  intros Hl Hl' Htt.
  pose proof (located_bounds t m l Hl) as Hb.
  pose proof (located_bounds t' m' l' Hl') as Hb'.
  assert (Hmm : m < m' + 1).
  { apply lt_IZR. rewrite plus_IZR. lra. }
  pose proof (rne_bounds m l). pose proof (rne_bounds m' l').
  destruct (Z.eq_dec m m') as [<-|Hne]; [|lia].
  destruct l as [|[]], l' as [|[]]; cbn [round_nearest_even located] in *;
    try lia; try lra; destruct (Z.even m); lia.
Qed.

Lemma located_scaled (x : R) (e m : Z) (l : location) :
  located (x / bpow e) m l ->
  (IZR m * bpow e <= x < (IZR m + 1) * bpow e)%R.
Proof.
  intros H. apply located_bounds in H. pose proof (bpow_pos e) as Hp.
  assert (Hx : x = (x / bpow e * bpow e)%R) by (field; lra).
  set (t := (x / bpow e)%R) in *. rewrite Hx. nra.
Qed.

(** ** The key of a rounded result *)

Lemma rank_finalize (r e : Z) :
  0 <= r <= 2 ^ 53 -> -1074 <= e -> (e = -1074 \/ 2 ^ 52 <= r) ->
  rank (finalize r e) = finalize_rank r e /\ nonneg (finalize r e).
Proof.
  intros Hr He Hn. unfold finalize_rank.
  destruct (Z.eqb_spec r 0) as [->|Hr0].
  - rewrite finalize_zero. split; reflexivity.
  - destruct (Z.ltb_spec r (2 ^ 53)) as [Hlt|Hge].
    + rewrite finalize_small by lia.
      destruct (e <=? 971); cbn [rank nonneg]; split; try reflexivity.
      now rewrite Z2Pos.id by lia.
    + replace r with (2 ^ 53) by lia. rewrite finalize_carry by lia.
      destruct (e + 1 <=? 971); cbn [rank nonneg]; split; reflexivity.
Qed.

Lemma rounds_rank (x : R) (f : double) :
  rounds x f ->
  exists m e l,
    normal_form m e /\ located (x / bpow e) m l
    /\ rank f = finalize_rank (round_nearest_even m l) e /\ nonneg f.
Proof.
  intros (m & e & l & Hnf & Hloc & ->). exists m, e, l.
  split; [exact Hnf|]. split; [exact Hloc|].
  destruct Hnf as (Hm & He & Hn). rewrite emin_value in *.
  pose proof (rne_bounds m l). apply rank_finalize; lia.
Qed.

(** Rounding is monotone. *)
Lemma rounds_monotone (x y : R) (f g : double) :
  (x <= y)%R -> rounds x f -> rounds y g -> lex_le (rank f) (rank g).
Proof.
  intros Hxy Hf Hg.
  destruct (rounds_rank x f Hf) as (m & e & l & Hnf & Hloc & -> & _).
  destruct (rounds_rank y g Hg) as (m' & e' & l' & Hnf' & Hloc' & -> & _).
  destruct Hnf as (Hm & He & Hn), Hnf' as (Hm' & He' & Hn').
  rewrite emin_value in *.
  pose proof (rne_bounds m l) as Hr. pose proof (rne_bounds m' l') as Hr'.
  pose proof (located_scaled x e m l Hloc) as Hx.
  pose proof (located_scaled y e' m' l' Hloc') as Hy.
  assert (Hee : e <= e').
  { destruct (Z_le_gt_dec e e') as [|Hgt]; [assumption | exfalso].
    assert (H52 : 2 ^ 52 <= m) by lia.
    assert (Hb : (2 * bpow e' <= bpow e)%R).
    { rewrite <- bpow_succ. apply bpow_le. lia. }
    assert (Hm1 : (IZR (2 ^ 52) <= IZR m)%R) by now apply IZR_le.
    assert (Hm2 : (IZR m' + 1 <= IZR (2 ^ 53))%R).
    { rewrite <- (plus_IZR m' 1). apply IZR_le. lia. }
    change (2 ^ 52) with 4503599627370496 in Hm1.
    change (2 ^ 53) with 9007199254740992 in Hm2.
    pose proof (bpow_pos e). pose proof (bpow_pos e'). nra. }
  assert (Hsame : e = e' -> round_nearest_even m l <= round_nearest_even m' l').
  { intros <-. apply (rne_monotone (x / bpow e) (y / bpow e)); auto.
    pose proof (bpow_pos e). apply Rmult_le_compat_r; [|exact Hxy].
    apply Rlt_le, Rinv_0_lt_compat. assumption. }
  unfold finalize_rank, lex_le.
  destruct (Z.eq_dec e e') as [Heq|Hne]; [specialize (Hsame Heq)|].
  - subst e'.
    destruct (Z.eqb_spec (round_nearest_even m l) 0),
             (Z.eqb_spec (round_nearest_even m' l') 0),
             (Z.ltb_spec (round_nearest_even m l) (2 ^ 53)),
             (Z.ltb_spec (round_nearest_even m' l') (2 ^ 53)),
             (Z.leb_spec e 971), (Z.leb_spec (e + 1) 971);
      cbn [fst snd]; lia.
  - destruct (Z.eqb_spec (round_nearest_even m l) 0),
             (Z.eqb_spec (round_nearest_even m' l') 0),
             (Z.ltb_spec (round_nearest_even m l) (2 ^ 53)),
             (Z.ltb_spec (round_nearest_even m' l') (2 ^ 53)),
             (Z.leb_spec e 971), (Z.leb_spec (e + 1) 971),
             (Z.leb_spec e' 971), (Z.leb_spec (e' + 1) 971);
      cbn [fst snd]; lia.
Qed.

(** ** [binary_round_aux] rounds *)

Lemma binary_round_aux_finalize (m e : Z) (l : location) :
  binary_round_aux prec emax false m e l
  = finalize (round_nearest_even (shr_m (fst (shr_fexp prec emax m e l)))
                (loc_of_shr_record (fst (shr_fexp prec emax m e l))))
             (snd (shr_fexp prec emax m e l)).
Proof.
  unfold binary_round_aux, finalize.
  destruct (shr_fexp prec emax m e l) as [mrs' e']. reflexivity.
Qed.

Lemma binary_round_aux_rounds (x : R) (m e : Z) (l : location) :
  0 <= m -> located (x / bpow e) m l -> e <= fexp prec emax (Zdigits2 m + e) ->
  rounds x (binary_round_aux prec emax false m e l).
Proof.
  intros Hm Hloc He. rewrite binary_round_aux_finalize.
  destruct (shr_fexp_normal x m e l Hm Hloc He) as [Hnf Hloc'].
  unfold rounds. eauto 6.
Qed.

(** ** The location of a quotient *)

Lemma new_location_located (D q k : Z) :
  0 < D -> 0 <= k < D ->
  located (IZR (D * q + k) / IZR D) q (new_location D k).
Proof.
  intros HD Hk.
  assert (HDr : (0 < IZR D)%R) by now apply IZR_lt.
  assert (Ht : (IZR (D * q + k) / IZR D = IZR q + IZR k / IZR D)%R).
  { rewrite plus_IZR, mult_IZR. field. lra. }
  rewrite Ht. set (u := (IZR k / IZR D)%R).
  assert (Hu : (u * IZR D = IZR k)%R) by (unfold u; field; lra).
  assert (Hk0 : (0 <= IZR k)%R) by (apply IZR_le; lia).
  assert (Hcmp : forall c, (2 * k ?= D) = c ->
            match c with
            | Lt => (2 * u < 1)%R | Eq => (2 * u = 1)%R | Gt => (1 < 2 * u)%R
            end).
  { intros c <-. destruct (Z.compare_spec (2 * k) D) as [He|Hl|Hg].
    - apply (f_equal IZR) in He. rewrite mult_IZR in He. nra.
    - apply IZR_lt in Hl. rewrite mult_IZR in Hl. nra.
    - apply IZR_lt in Hg. rewrite mult_IZR in Hg. nra. }
  assert (Hu1 : (u < 1)%R).
  { assert (IZR k < IZR D)%R by (apply IZR_lt; lia). nra. }
  unfold new_location, new_location_even, new_location_odd.
  destruct (Z.eqb_spec k 0) as [Hk1|Hk1]; [subst k|].
  - replace u with 0%R by (unfold u; field; lra).
    destruct (Z.even D); cbn [Z.eqb located]; lra.
  - assert (Hupos : (0 < u)%R).
    { assert (0 < IZR k)%R by (apply IZR_lt; lia). nra. }
    assert (Ek : (k =? 0) = false) by now apply Z.eqb_neq.
    destruct (Z.even D) eqn:Ev; rewrite ?Ek.
    + specialize (Hcmp _ eq_refl).
      destruct (2 * k ?= D); cbn beta iota in Hcmp; cbn [located]; lra.
    + assert (Hodd : 2 * k <> D).
      { intros <-. rewrite Z.even_mul in Ev. discriminate. }
      destruct (Z.compare_spec (2 * k + 1) D) as [He|Hl|Hg].
      * assert (Hc := Hcmp Lt). rewrite Z.compare_lt_iff in Hc.
        specialize (Hc ltac:(lia)). cbn beta iota in Hc. cbn [located]. lra.
      * assert (Hc := Hcmp Lt). rewrite Z.compare_lt_iff in Hc.
        specialize (Hc ltac:(lia)). cbn beta iota in Hc. cbn [located]. lra.
      * assert (Hc := Hcmp Gt). rewrite Z.compare_gt_iff in Hc.
        specialize (Hc ltac:(lia)). cbn beta iota in Hc. cbn [located]. lra.
Qed.

(** ** Division *)

Lemma div_core_located (ma ms : positive) (ea es : Z) :
  let x := (IZR (Zpos ma) * bpow ea / (IZR (Zpos ms) * bpow es))%R in
  let c := SFdiv_core_binary prec emax (Zpos ma) ea (Zpos ms) es in
  0 <= fst (fst c)
  /\ located (x / bpow (snd (fst c))) (fst (fst c)) (snd c)
  /\ snd (fst c) <= fexp prec emax (Zdigits2 (fst (fst c)) + snd (fst c)).
Proof.
  intros x c. unfold c, SFdiv_core_binary.
  set (d1 := Zdigits2 (Zpos ma)). set (d2 := Zdigits2 (Zpos ms)).
  set (e' := Z.min (fexp prec emax (d1 + ea - (d2 + es))) (ea - es)).
  set (s := ea - es - e').
  assert (Hs : 0 <= s) by (unfold s, e'; lia).
  set (m' := match s with
             | 0 => Zpos ma | Zpos _ => Z.shiftl (Zpos ma) s | Zneg _ => 0
             end).
  assert (Hm' : m' = Zpos ma * 2 ^ s).
  { unfold m'. destruct s as [|p|p]; [cbn; lia | | lia].
    now rewrite Z.shiftl_mul_pow2 by lia. }
  pose proof (Z_div_mod m' (Zpos ms) eq_refl) as Hdm.
  destruct (Z.div_eucl m' (Zpos ms)) as [q r]. destruct Hdm as [Hq Hr].
  cbn [fst snd].
  assert (Hps : 0 < 2 ^ s) by (apply Z.pow_pos_nonneg; lia).
  assert (Hq0 : 0 <= q) by nia.
  split; [exact Hq0|]. split.
  - replace (x / bpow e')%R with (IZR (Zpos ms * q + r) / IZR (Zpos ms))%R.
    + apply new_location_located; lia.
    + rewrite <- Hq, Hm', mult_IZR, <- (bpow_IZR s Hs). unfold x.
      assert (Hea : bpow ea = (bpow s * bpow es * bpow e')%R).
      { rewrite <- !bpow_add. f_equal. unfold s. lia. }
      rewrite Hea.
      pose proof (bpow_pos s). pose proof (bpow_pos es). pose proof (bpow_pos e').
      assert (0 < IZR (Zpos ms))%R by (apply IZR_lt; lia).
      field. lra.
  - rewrite fexp_value.
    destruct (Z_le_gt_dec e' (-1074)) as [|Hgt]; [lia|].
    assert (He' : e' <= d1 + ea - (d2 + es) - 53)
      by (unfold e' in *; rewrite fexp_value in *; lia).
    set (k := d1 + ea - (d2 + es) - e') in *.
    destruct (Zdigits2_bounds (Zpos ma) eq_refl) as (Hd1 & Hlo1 & _).
    destruct (Zdigits2_bounds (Zpos ms) eq_refl) as (Hd2 & _ & Hhi2).
    fold d1 in Hd1, Hlo1. fold d2 in Hd2, Hhi2.
    assert (Hk : 2 ^ (k - 1) <= q).
    { assert (Hkpos : 0 < 2 ^ (k - 1)) by (apply Z.pow_pos_nonneg; lia).
      assert (Hsplit : 2 ^ (k - 1) * 2 ^ d2 = 2 ^ (d1 - 1) * 2 ^ s).
      { rewrite <- !pow2_split by lia. f_equal. unfold k, s. lia. }
      assert (Hlow : 2 ^ (k - 1) * Zpos ms <= m') by (rewrite Hm'; nia).
      destruct (Z_le_gt_dec (2 ^ (k - 1)) q) as [|Hlt]; [assumption|].
      exfalso. nia. }
    pose proof (Zdigits2_ge q (k - 1) Hk). unfold k in *. lia.
Qed.

Lemma div_rounds (ma ms : positive) (ea es : Z) :
  rounds (value (S754_finite false ma ea) / value (S754_finite false ms es))
         (div (S754_finite false ma ea) (S754_finite false ms es)).
Proof.
  unfold div. cbn [SFdiv xorb value].
  destruct (div_core_located ma ms ea es) as (H0 & Hloc & He).
  destruct (SFdiv_core_binary prec emax (Zpos ma) ea (Zpos ms) es) as [[q e'] l].
  cbn [fst snd] in *.
  apply binary_round_aux_rounds; auto.
  replace (1 * IZR (Zpos ma) * bpow ea / (1 * IZR (Zpos ms) * bpow es))%R
    with (IZR (Zpos ma) * bpow ea / (IZR (Zpos ms) * bpow es))%R; [exact Hloc|].
  f_equal; ring.
Qed.

(** ** Rounded results stay below a power of two *)

Lemma rounds_below (x : R) (f : double) (k : Z) :
  rounds x f -> (x < bpow k)%R -> -1074 <= k <= 1023 ->
  finite_nonneg f /\ (value f <= bpow k)%R.
Proof.
  intros (m & e & l & (Hm & He & Hn) & Hloc & ->) Hx Hk.
  rewrite emin_value in *.
  pose proof (rne_bounds m l) as Hr.
  pose proof (located_scaled x e m l Hloc) as [Hlo _].
  pose proof (bpow_pos e) as Hpe. pose proof (bpow_pos k) as Hpk.
  assert (Hek : e <= k /\ (e = -1074 \/ e + 52 < k)).
  { destruct Hn as [->|H52]; [lia|].
    assert (e + 52 < k); [|lia].
    destruct (Z_lt_le_dec (e + 52) k) as [|Hle]; [assumption | exfalso].
    assert (Hb : (bpow k <= bpow (e + 52))%R) by now apply bpow_le.
    rewrite Z.add_comm, bpow_add, (bpow_IZR 52) in Hb by lia.
    assert (Hm1 : (IZR (2 ^ 52) <= IZR m)%R) by now apply IZR_le.
    nra. }
  destruct Hek as [Hek He971].
  assert (Hbk : bpow k = (IZR (2 ^ (k - e)) * bpow e)%R).
  { rewrite <- bpow_IZR, <- bpow_add by lia. f_equal. lia. }
  assert (Hmk : m < 2 ^ (k - e)).
  { apply lt_IZR. rewrite Hbk in Hx. nra. }
  assert (Hrk : (IZR (round_nearest_even m l) * bpow e <= bpow k)%R).
  { rewrite Hbk. apply Rmult_le_compat_r; [lra|]. apply IZR_le. lia. }
  set (r := round_nearest_even m l) in *.
  destruct (Z.eq_dec r 0) as [->|Hr0].
  - rewrite finalize_zero. cbn. split; [exact I | lra].
  - destruct (Z_lt_le_dec r (2 ^ 53)) as [Hlt|Hge].
    + rewrite finalize_small by lia.
      replace (e <=? 971) with true by (symmetry; apply Z.leb_le; lia).
      cbn [finite_nonneg value]. split; [exact I|].
      rewrite Z2Pos.id by lia. lra.
    + assert (Hr53 : r = 2 ^ 53) by lia. rewrite Hr53 in *.
      rewrite finalize_carry by lia.
      replace (e + 1 <=? 971) with true by (symmetry; apply Z.leb_le; lia).
      cbn [finite_nonneg value]. split; [exact I|].
      rewrite Z2Pos.id by lia. rewrite bpow_succ.
      change (2 ^ 52) with 4503599627370496.
      change (2 ^ 53) with 9007199254740992 in Hrk. lra.
Qed.

(** ** Conversion from integers *)

Lemma Zdigits2_shift (p : positive) (d : Z) :
  0 <= d -> Zdigits2 (Zpos p * 2 ^ d) = Zdigits2 (Zpos p) + d.
Proof.
  intros Hd.
  destruct (Zdigits2_bounds (Zpos p) eq_refl) as (HD & Hlo & Hhi).
  assert (Hpd : 0 < 2 ^ d) by (apply Z.pow_pos_nonneg; lia).
  assert (Hle : Zdigits2 (Zpos p * 2 ^ d) <= Zdigits2 (Zpos p) + d).
  { apply Zdigits2_le; [lia|]. rewrite pow2_split by lia. nia. }
  assert (Hge : Zdigits2 (Zpos p) + d - 1 < Zdigits2 (Zpos p * 2 ^ d)).
  { apply Zdigits2_ge.
    replace (Zdigits2 (Zpos p) + d - 1) with (Zdigits2 (Zpos p) - 1 + d) by lia.
    rewrite pow2_split by lia. nia. }
  lia.
Qed.

Lemma of_Z_rounds (z : Z) : 0 < z -> rounds (IZR z) (of_Z z).
Proof.
  intros Hz. destruct z as [|p|p]; try lia.
  unfold of_Z, binary_normalize, binary_round, shl_align.
  change (Zpos (digits2_pos p)) with (Zdigits2 (Zpos p)).
  destruct (Zdigits2_bounds (Zpos p) eq_refl) as (HD & _).
  set (D := Zdigits2 (Zpos p)) in *.
  rewrite fexp_value.
  destruct (Z.max (D + 0 - 53) (-1074) - 0) as [|d|d] eqn:E.
  - apply binary_round_aux_rounds; [lia | |].
    + cbn [located]. unfold bpow; cbn. field.
    + fold D. rewrite fexp_value. lia.
  - apply binary_round_aux_rounds; [lia | |].
    + cbn [located]. unfold bpow; cbn. field.
    + fold D. rewrite fexp_value. lia.
  - change (Pos.iter xO p d) with (shift_pos d p).
    assert (Hmz : Zpos (shift_pos d p) = Zpos p * 2 ^ Zpos d).
    { rewrite shift_pos_correct. change (Z.pow_pos 2 d) with (2 ^ Zpos d). lia. }
    rewrite Hmz.
    apply binary_round_aux_rounds.
    + assert (0 < 2 ^ Zpos d) by (apply Z.pow_pos_nonneg; lia). lia.
    + cbn [located]. rewrite mult_IZR, <- bpow_IZR by lia.
      assert (Hb : (bpow (Z.max (D + 0 - 53) (-1074)) * bpow (Zpos d) = 1)%R).
      { rewrite <- bpow_add. replace (Z.max (D + 0 - 53) (-1074) + Zpos d) with 0 by lia.
        reflexivity. }
      pose proof (bpow_pos (Z.max (D + 0 - 53) (-1074))).
      pose proof (bpow_pos (Zpos d)).
      apply Rmult_eq_reg_r with (bpow (Z.max (D + 0 - 53) (-1074))); [|lra].
      unfold Rdiv. rewrite Rmult_assoc, Rinv_l by lra.
      rewrite Rmult_assoc, (Rmult_comm (bpow (Zpos d))), Hb. ring.
    + rewrite Zdigits2_shift by lia. fold D. rewrite fexp_value. lia.
Qed.

(** ** Well-formed doubles and their order *)

Lemma bounded_normal_form (m : positive) (e : Z) :
  SpecFloat.bounded prec emax m e = true -> normal_form (Zpos m) e.
Proof.
  unfold SpecFloat.bounded, canonical_mantissa. intros H.
  apply andb_true_iff in H. destruct H as [Hc _].
  apply Z.eqb_eq in Hc. rewrite fexp_value in Hc.
  change (Zpos (digits2_pos m)) with (Zdigits2 (Zpos m)) in Hc.
  destruct (Zdigits2_bounds (Zpos m) eq_refl) as (HD & Hlo & Hhi).
  unfold normal_form. rewrite emin_value.
  split; [split; [lia|]|split; [lia|]].
  - assert (2 ^ Zdigits2 (Zpos m) <= 2 ^ 53) by (apply Z.pow_le_mono_r; lia). lia.
  - destruct (Z.eq_dec e (-1074)) as [|Hne]; [now left | right].
    replace 52 with (Zdigits2 (Zpos m) - 1) by lia. exact Hlo.
Qed.

Lemma normal_form_value_le (m1 e1 m2 e2 : Z) :
  normal_form m1 e1 -> normal_form m2 e2 ->
  lex_le (1, e1, m1) (1, e2, m2) ->
  (IZR m1 * bpow e1 <= IZR m2 * bpow e2)%R.
Proof.
  intros (Hm1 & He1 & Hn1) (Hm2 & He2 & Hn2) Hle.
  unfold lex_le in Hle; cbn [fst snd] in Hle. rewrite emin_value in *.
  pose proof (bpow_pos e1). pose proof (bpow_pos e2).
  assert (Hcase : e1 < e2 \/ (e1 = e2 /\ m1 <= m2)) by lia.
  destruct Hcase as [Hlt | [<- Hmm]].
  - assert (Hb : (2 * bpow e1 <= bpow e2)%R).
    { rewrite <- bpow_succ. apply bpow_le. lia. }
    assert (H1 : (IZR m1 <= IZR (2 ^ 53))%R) by (apply IZR_le; lia).
    assert (H2 : (IZR (2 ^ 52) <= IZR m2)%R) by (apply IZR_le; lia).
    change (2 ^ 53) with 9007199254740992 in H1.
    change (2 ^ 52) with 4503599627370496 in H2. nra.
  - apply Rmult_le_compat_r; [lra|]. now apply IZR_le.
Qed.

Lemma positive_double_cases (s : double) :
  positive_double s ->
  s = S754_infinity false
  \/ exists m e, s = S754_finite false m e /\ normal_form (Zpos m) e.
Proof.
  intros [Hv Hpos]. destruct s as [sg|sg| |sg m e]; try discriminate.
  - destruct sg; [discriminate | now left].
  - destruct sg; [discriminate|]. right. exists m, e. split; [reflexivity|].
    now apply bounded_normal_form.
Qed.

(** ** [to_bw] is antitone in the elapsed time *)

Lemma rounds_nonneg (x : R) (f : double) :
  rounds x f -> nonneg f /\ lex_le (0, 0, 0) (rank f).
Proof.
  intros H. destruct (rounds_rank x f H) as (m & e & l & Hnf & _ & -> & Hn).
  split; [exact Hn|]. destruct Hnf as (Hm & _).
  pose proof (rne_bounds m l). unfold finalize_rank, lex_le.
  destruct (round_nearest_even m l =? 0), (round_nearest_even m l <? 2 ^ 53),
           (e <=? 971), (e + 1 <=? 971); cbn [fst snd]; lia.
Qed.

Lemma div_zero_positive (s : double) :
  positive_double s -> div zero s = zero.
Proof.
  intros H. destruct (positive_double_cases s H) as [->|(m & e & -> & _)];
    reflexivity.
Qed.

Lemma div_antitone (ma : positive) (ea : Z) (s1 s2 : double) :
  positive_double s1 -> positive_double s2 -> leb s1 s2 = true ->
  lex_le (rank (div (S754_finite false ma ea) s2))
         (rank (div (S754_finite false ma ea) s1))
  /\ nonneg (div (S754_finite false ma ea) s1)
  /\ nonneg (div (S754_finite false ma ea) s2).
Proof.
  intros H1 H2 Hle.
  destruct (positive_double_cases s1 H1) as [->|(m1 & e1 & -> & Hn1)];
    destruct (positive_double_cases s2 H2) as [->|(m2 & e2 & -> & Hn2)].
  - cbn. unfold lex_le; cbn. repeat split; lia.
  - discriminate.
  - destruct (rounds_nonneg _ _ (div_rounds ma m1 ea e1)) as [Hnn Hz].
    cbn [div SFdiv xorb rank nonneg]. fold (div (S754_finite false ma ea) (S754_finite false m1 e1)).
    repeat split; auto.
  - pose proof (div_rounds ma m1 ea e1) as R1.
    pose proof (div_rounds ma m2 ea e2) as R2.
    destruct (rounds_nonneg _ _ R1) as [Hnn1 _].
    destruct (rounds_nonneg _ _ R2) as [Hnn2 _].
    split; [|split; assumption].
    apply (rounds_monotone _ _ _ _) with (2 := R2) (3 := R1).
    apply leb_rank in Hle; [|reflexivity|reflexivity]. cbn [rank] in Hle.
    pose proof (normal_form_value_le _ _ _ _ Hn1 Hn2 Hle) as Hv.
    cbn [value]. pose proof (bpow_pos ea). pose proof (bpow_pos e1).
    pose proof (bpow_pos e2).
    assert (0 < IZR (Zpos ma))%R by (apply IZR_lt; lia).
    assert (0 < IZR (Zpos m1))%R by (apply IZR_lt; lia).
    assert (0 < IZR (Zpos m2))%R by (apply IZR_lt; lia).
    set (A := (1 * IZR (Zpos ma) * bpow ea)%R).
    set (V1 := (IZR (Zpos m1) * bpow e1)%R) in *.
    set (V2 := (IZR (Zpos m2) * bpow e2)%R) in *.
    replace (1 * IZR (Zpos m1) * bpow e1)%R with V1 by (unfold V1; ring).
    replace (1 * IZR (Zpos m2) * bpow e2)%R with V2 by (unfold V2; ring).
    assert (HA : (0 < A)%R) by (unfold A; nra).
    assert (HV1 : (0 < V1)%R) by (unfold V1; nra).
    assert (HV2 : (0 < V2)%R) by (unfold V2; nra).
    unfold Rdiv. apply Rmult_le_compat_l; [lra|].
    apply Rinv_le_contravar; assumption.
Qed.

Lemma BYTES_PER_GB_double :
  of_Z BYTES_PER_GB = S754_finite false 4503599627370496 (-22).
Proof. vm_compute. reflexivity. Qed.

(** The size in GiB of a [size_t] byte count is [+0] or positive and
    finite. *)
Lemma size_gb_finite (bytes : Z) :
  is_ull bytes -> finite_nonneg (div (of_Z bytes) (of_Z BYTES_PER_GB)).
Proof.
  intros [H0 Hmax]. rewrite BYTES_PER_GB_double.
  destruct (Z.eq_dec bytes 0) as [->|Hne]; [exact I|].
  assert (Hr := of_Z_rounds bytes ltac:(lia)).
  assert (Hlt : (IZR bytes < bpow 64)%R).
  { rewrite bpow_IZR by lia. now apply IZR_lt. }
  destruct (rounds_below _ _ 64 Hr Hlt ltac:(lia)) as [Hfin Hval].
  destruct (of_Z bytes) as [[|]|sg| |[|] m e]; try contradiction; [exact I|].
  pose proof (div_rounds m 4503599627370496 e (-22)) as Hd.
  assert (Hg : value (S754_finite false 4503599627370496 (-22)) = bpow 30).
  { cbn [value]. rewrite (bpow_IZR 30) by lia.
    change (bpow (-22)) with (/ (2 ^ 22))%R.
    change (2 ^ 30) with 1073741824. lra. }
  rewrite Hg in Hd.
  assert (Hq : (value (S754_finite false m e) / bpow 30 < bpow 35)%R).
  { pose proof (bpow_pos 30).
    replace (bpow 35) with (bpow 65 / bpow 30)%R.
    - apply Rmult_lt_compat_r; [now apply Rinv_0_lt_compat|].
      replace 65 with (64 + 1) by lia. rewrite bpow_succ.
      pose proof (bpow_pos 64). lra.
    - replace 65 with (35 + 30) by lia. rewrite bpow_add. field. lra. }
  exact (proj1 (rounds_below _ _ 35 Hd Hq ltac:(lia))).
Qed.

Lemma to_bw_nonneg (bytes : Z) (s : double) :
  is_ull bytes -> positive_double s -> nonneg (to_bw bytes s).
Proof.
  intros Hb Hs. unfold to_bw. pose proof (size_gb_finite bytes Hb) as Hf.
  destruct (div (of_Z bytes) (of_Z BYTES_PER_GB)) as [[|]|sg| |[|] m e];
    try contradiction.
  - fold zero. now rewrite div_zero_positive.
  - exact (proj1 (proj2 (div_antitone m e s s Hs Hs
                           ltac:(apply leb_rank;
                                 [destruct Hs as [_ H]; apply ltb_not_nan in H; tauto ..
                                 | apply lex_le_refl])))).
Qed.

Lemma positive_double_not_nan (s : double) : positive_double s -> is_nan s = false.
Proof. intros [_ H]. apply ltb_not_nan in H. tauto. Qed.

Lemma nonneg_not_nan (f : double) : nonneg f -> is_nan f = false.
Proof. destruct f; cbn; (reflexivity || contradiction). Qed.

Lemma to_bw_antitone (bytes : Z) (s1 s2 : double) :
  is_ull bytes -> positive_double s1 -> positive_double s2 ->
  leb s1 s2 = true -> leb (to_bw bytes s2) (to_bw bytes s1) = true.
Proof.
  intros Hb H1 H2 Hle.
  pose proof (to_bw_nonneg bytes s1 Hb H1) as N1.
  pose proof (to_bw_nonneg bytes s2 Hb H2) as N2.
  apply leb_rank; [now apply nonneg_not_nan | now apply nonneg_not_nan |].
  unfold to_bw in *. pose proof (size_gb_finite bytes Hb) as Hf.
  destruct (div (of_Z bytes) (of_Z BYTES_PER_GB)) as [[|]|sg| |[|] m e];
    try contradiction.
  - fold zero. rewrite !div_zero_positive by assumption. apply lex_le_refl.
  - exact (proj1 (div_antitone m e s1 s2 H1 H2 Hle)).
Qed.

(** ** The reduction by maximum *)

Lemma fold_keep_max_spec (l : list double) (m0 : double) :
  is_nan m0 = false -> Forall (fun x => is_nan x = false) l ->
  (fold_left (fun m x => if ltb m x then x else m) l m0 = m0
   \/ In (fold_left (fun m x => if ltb m x then x else m) l m0) l)
  /\ lex_le (rank m0) (rank (fold_left (fun m x => if ltb m x then x else m) l m0))
  /\ (forall x, In x l ->
        lex_le (rank x) (rank (fold_left (fun m x => if ltb m x then x else m) l m0))).
Proof.
  intros Hm Hl. revert m0 Hm.
  induction Hl as [|x l Hx Hl IH]; intros m0 Hm; cbn [fold_left].
  - repeat split; auto using lex_le_refl. intros x [].
  - assert (Hstep : is_nan (if ltb m0 x then x else m0) = false
                    /\ lex_le (rank m0) (rank (if ltb m0 x then x else m0))
                    /\ lex_le (rank x) (rank (if ltb m0 x then x else m0))).
    { destruct (ltb m0 x) eqn:E.
      - repeat split; auto using lex_le_refl.
        apply lex_lt_le. now apply ltb_rank.
      - repeat split; auto using lex_le_refl.
        apply lex_le_not_lt. intros H. apply (ltb_rank m0 x Hm Hx) in H. congruence. }
    destruct Hstep as (Hn & Hle0 & Hlex).
    destruct (IH _ Hn) as (Hsel & Hle & Hall).
    repeat split.
    + destruct Hsel as [Heq | Hin]; [|right; now right].
      rewrite Heq. destruct (ltb m0 x); [right; now left | now left].
    + eauto using lex_le_trans.
    + intros y [<- | Hy]; [eauto using lex_le_trans | now apply Hall].
Qed.

Lemma max_bw_spec (l : list double) :
  l <> [] -> Forall (fun x => is_nan x = false) l ->
  In (max_bw l) l /\ forall x, In x l -> lex_le (rank x) (rank (max_bw l)).
Proof.
  intros Hne Hl. destruct l as [|b rest]; [congruence|].
  inversion Hl as [|? ? Hb Hrest]; subst. cbn [max_bw].
  destruct (fold_keep_max_spec rest b Hb Hrest) as (Hsel & Hle & Hall).
  split.
  - destruct Hsel as [-> | Hin]; [now left | now right].
  - intros x [<- | Hx]; [exact Hle | now apply Hall].
Qed.

(** C10. For a [size_t] byte count and a non-empty set of strictly
    positive elapsed times, the bandwidth of the minimum elapsed time is
    the maximum of the bandwidths of the samples; [to_bw] is antitone in
    the elapsed time. *)
Theorem min_elapsed_gives_max_bandwidth (bytes : Z) (samples : list double) :
  is_ull bytes -> samples <> [] -> Forall positive_double samples ->
  to_bw bytes (min_elapsed samples) = max_bw (map (to_bw bytes) samples)
  /\ In (min_elapsed samples) samples
  /\ (forall s1 s2, In s1 samples -> In s2 samples -> leb s1 s2 = true ->
        leb (to_bw bytes s2) (to_bw bytes s1) = true).
Proof.
  intros Hb Hne Hpos. rewrite Forall_forall in Hpos.
  assert (Hanti : forall s1 s2, In s1 samples -> In s2 samples ->
            leb s1 s2 = true -> leb (to_bw bytes s2) (to_bw bytes s1) = true).
  { intros s1 s2 H1 H2. apply to_bw_antitone; auto. }
  destruct (fold_keep_min_spec samples INFINITY eq_refl)
    as (Hnan & Hsel & _ & Hlow).
  fold (min_elapsed samples) in *.
  assert (Hin : In (min_elapsed samples) samples).
  { destruct Hsel as [Hinf | Hin]; [|exact Hin].
    destruct samples as [|t rest]; [congruence|].
    assert (Ht : positive_double t) by (apply Hpos; now left).
    specialize (Hlow t (or_introl eq_refl) (positive_double_not_nan t Ht)).
    rewrite Hinf in Hlow |- *.
    destruct (positive_double_cases t Ht) as [->|(m & e & -> & _)].
    - now left.
    - unfold lex_le in Hlow; cbn in Hlow. lia. }
  split; [|split; [exact Hin | exact Hanti]].
  assert (Hmap_ne : map (to_bw bytes) samples <> []).
  { destruct samples; [congruence | discriminate]. }
  assert (Hmap_nn : forall b, In b (map (to_bw bytes) samples) -> nonneg b).
  { intros b Hb'. apply in_map_iff in Hb'. destruct Hb' as (s & <- & Hs).
    apply to_bw_nonneg; auto. }
  assert (Hmap_nan : Forall (fun x => is_nan x = false) (map (to_bw bytes) samples)).
  { apply Forall_forall. intros b Hb'. now apply nonneg_not_nan, Hmap_nn. }
  destruct (max_bw_spec _ Hmap_ne Hmap_nan) as (Hmax_in & Hmax).
  apply rank_inj_nonneg.
  - apply to_bw_nonneg; auto.
  - now apply Hmap_nn.
  - apply lex_le_antisym.
    + apply Hmax. now apply in_map.
    + apply in_map_iff in Hmax_in. destruct Hmax_in as (s & Hs_eq & Hs).
      rewrite <- Hs_eq.
      apply leb_rank;
        [apply nonneg_not_nan, to_bw_nonneg; auto ..|].
      apply Hanti; auto.
      apply leb_rank;
        [assumption | apply positive_double_not_nan; auto |].
      apply Hlow; [assumption | apply positive_double_not_nan; auto].
Qed.

Lemma min_elapsed_gives_max_bandwidth_witness :
  is_ull (5 * BYTES_PER_GB)
  /\ [literal 9 10; literal 5 10; literal 7 10; literal 6 10; literal 8 10] <> []
  /\ Forall positive_double
       [literal 9 10; literal 5 10; literal 7 10; literal 6 10; literal 8 10]
  /\ to_bw (5 * BYTES_PER_GB)
       (min_elapsed [literal 9 10; literal 5 10; literal 7 10; literal 6 10; literal 8 10])
     = max_bw (map (to_bw (5 * BYTES_PER_GB))
                 [literal 9 10; literal 5 10; literal 7 10; literal 6 10; literal 8 10]).
Proof.
  assert (H1 : is_ull (5 * BYTES_PER_GB))
    by (unfold is_ull; vm_compute; intuition discriminate).
  assert (H2 : [literal 9 10; literal 5 10; literal 7 10; literal 6 10; literal 8 10] <> [])
    by discriminate.
  assert (H3 : Forall positive_double
                 [literal 9 10; literal 5 10; literal 7 10; literal 6 10; literal 8 10])
    by (repeat constructor; vm_compute; reflexivity).
  split; [exact H1|]. split; [exact H2|]. split; [exact H3|].
  apply (min_elapsed_gives_max_bandwidth (5 * BYTES_PER_GB) _ H1 H2 H3).
Defined.

(** * Further properties of the harness *)

(** ** What the samplers leave unchanged *)

(** X1. A sampler never changes [SIZE] and only appends to the trace;
    [timeit] reads the clock exactly [2 * SAMPLES] times, and so does a
    [timeitp] that completes, while one that aborts reads it not at all. *)
Theorem samplers_keep_size
        (clock : nat -> double) (nt : nat -> Z) (T : Z) (k : kernel) (st : state) :
  SIZE (timeit clock k st) = SIZE st
  /\ reads (timeit clock k st) = (reads st + 2 * SAMPLES)%nat
  /\ (exists evs, trace (timeit clock k st) = trace st ++ evs)
  /\ SIZE (final_state (timeitp clock nt T k st)) = SIZE st
  /\ (exists evs, trace (final_state (timeitp clock nt T k st)) = trace st ++ evs)
  /\ match timeitp clock nt T k st with
     | Done st' => reads st' = (reads st + 2 * SAMPLES)%nat
     | Aborted st' => reads st' = reads st
     end.
Proof.
  rewrite timeit_advance.
  split; [reflexivity|]. split; [reflexivity|]. split; [eexists; reflexivity|].
  destruct (Z.eq_dec (ull_rem (SIZE st) (to_ull T)) 0) as [H|H].
  - rewrite timeitp_ok by assumption. cbn [final_state].
    split; [reflexivity|]. split; [eexists; reflexivity | reflexivity].
  - rewrite timeitp_abort by assumption. cbn [final_state].
    rewrite emit_advance.
    split; [reflexivity|]. split; [eexists; reflexivity|].
    cbn. lia.
Qed.

(** ** The clock is read in order *)

Lemma clock_reads_app (l1 l2 : list event) :
  clock_reads (l1 ++ l2) = clock_reads l1 ++ clock_reads l2.
Proof. apply flat_map_app. Qed.

Lemma clock_reads_none (l : list event) :
  Forall (fun e => match e with EvClock _ => False | _ => True end) l ->
  clock_reads l = [].
Proof.
  induction 1 as [|e l He _ IH]; [reflexivity|].
  unfold clock_reads in *. cbn [flat_map]. rewrite IH.
  destruct e; (reflexivity || contradiction).
Qed.

Lemma clock_reads_repeat_kernel (k : kernel) (o len : Z) (n : nat) :
  clock_reads (repeat (EvKernel k o len) n) = [].
Proof.
  apply clock_reads_none. induction n; cbn; constructor; auto.
Qed.

Lemma clock_reads_trials (k : kernel) (size : Z) (r n : nat) :
  clock_reads (trials_events k size r n) = seq r (2 * n).
Proof.
  induction n as [|n IH]; [reflexivity|].
  rewrite trials_events_S, clock_reads_app, IH. unfold trial_events.
  rewrite !clock_reads_app, clock_reads_repeat_kernel.
  replace (2 * S n)%nat with (2 * n + 2)%nat by lia.
  rewrite seq_app. reflexivity.
Qed.

Lemma clock_reads_region (n T : Z) (k : kernel) (size : Z) :
  clock_reads (region_events n T k size) = [].
Proof.
  unfold region_events. induction (team n) as [|tid l IH]; [reflexivity|].
  cbn [map List.concat]. now rewrite clock_reads_app, clock_reads_repeat_kernel, IH.
Qed.

Lemma ptrials_events_S (nt : nat -> Z) (T : Z) (k : kernel) (size : Z) (r n : nat) :
  ptrials_events nt T k size r (S n)
  = ptrials_events nt T k size r n ++ ptrial_events nt T k size (r + 2 * n).
Proof.
  unfold ptrials_events. rewrite seq_S, map_app, concat_app.
  cbn [map List.concat]. now rewrite app_nil_r.
Qed.

Lemma clock_reads_ptrials (nt : nat -> Z) (T : Z) (k : kernel) (size : Z) (r n : nat) :
  clock_reads (ptrials_events nt T k size r n) = seq r (2 * n).
Proof.
  induction n as [|n IH]; [reflexivity|].
  rewrite ptrials_events_S, clock_reads_app, IH. unfold ptrial_events.
  rewrite !clock_reads_app, clock_reads_region.
  replace (2 * S n)%nat with (2 * n + 2)%nat by lia.
  rewrite seq_app. reflexivity.
Qed.

Lemma clock_reads_single_pass (clock : nat -> double) (ks : list kernel)
      (size : Z) (r : nat) :
  clock_reads (single_pass_events clock ks size r)
  = seq r (2 * SAMPLES * List.length ks).
Proof.
  revert r. induction ks as [|k ks IH]; intros r; [reflexivity|].
  cbn [single_pass_events List.length]. unfold timeit_events.
  rewrite !clock_reads_app, clock_reads_trials, IH. cbn [clock_reads flat_map].
  rewrite app_nil_r.
  replace (2 * SAMPLES * S (List.length ks))%nat
    with (2 * SAMPLES + 2 * SAMPLES * List.length ks)%nat by lia.
  now rewrite seq_app.
Qed.

Lemma clock_reads_multi_pass (clock : nat -> double) (nt : nat -> Z) (T : Z)
      (ks : list kernel) (size : Z) (r : nat) :
  clock_reads (multi_pass_events clock nt T ks size r)
  = seq r (2 * SAMPLES * List.length ks).
Proof.
  revert r. induction ks as [|k ks IH]; intros r; [reflexivity|].
  cbn [multi_pass_events List.length]. unfold timeitp_events.
  rewrite !clock_reads_app, clock_reads_ptrials, IH. cbn [clock_reads flat_map].
  rewrite app_nil_r.
  replace (2 * SAMPLES * S (List.length ks))%nat
    with (2 * SAMPLES + 2 * SAMPLES * List.length ks)%nat by lia.
  now rewrite seq_app.
Qed.

Lemma clock_reads_renice (cfg : config) : clock_reads (renice_events cfg) = [].
Proof.
  unfold renice_events.
  now destruct ((nice_result cfg <? 0) && negb (nice_errno cfg =? 0)).
Qed.

(** X2. A run reads the clock twice per trial and nowhere else, and uses
    the readings in the order they are taken: the readings consumed are
    numbers [0, 1, ..., N-1] with [N = 2 * SAMPLES] per kernel and pass. *)
Theorem main_reads_clock_in_order (clock : nat -> double) (cfg : config) :
  (WITH_OPENMP cfg = true -> thread_count (omp_max_threads cfg)) ->
  clock_reads (trace (final_state (main clock cfg)))
  = seq 0 ((if WITH_OPENMP cfg then 2 else 1)
           * (2 * SAMPLES * List.length (catalogue cfg)))
  /\ reads (final_state (main clock cfg))
     = ((if WITH_OPENMP cfg then 2 else 1)
        * (2 * SAMPLES * List.length (catalogue cfg)))%nat.
Proof.
  intros HT. rewrite main_ok by assumption. cbn [final_state trace reads].
  unfold main_events, single_core_events, multi_core_events.
  rewrite !clock_reads_app, clock_reads_renice, clock_reads_single_pass.
  destruct (WITH_OPENMP cfg).
  - rewrite clock_reads_app, clock_reads_multi_pass. cbn [clock_reads flat_map app].
    split; [|lia].
    replace (2 * (2 * SAMPLES * List.length (catalogue cfg)))%nat
      with (2 * SAMPLES * List.length (catalogue cfg)
            + 2 * SAMPLES * List.length (catalogue cfg))%nat by lia.
    now rewrite seq_app.
  - cbn [clock_reads flat_map app]. rewrite app_nil_r.
    split; [f_equal; lia | lia].
Qed.

Lemma main_reads_clock_in_order_witness :
  (WITH_OPENMP four_threads = true -> thread_count (omp_max_threads four_threads))
  /\ reads (final_state (main still_clock four_threads)) = 240%nat.
Proof.
  split; [exact four_threads_ok|].
  apply (main_reads_clock_in_order still_clock four_threads four_threads_ok).
Defined.

(** ** The report *)

Lemma reports_app (l1 l2 : list event) :
  reports (l1 ++ l2) = reports l1 ++ reports l2.
Proof. apply flat_map_app. Qed.

Lemma reports_none (l : list event) :
  Forall (fun e => match e with EvReport _ _ _ => False | _ => True end) l ->
  reports l = [].
Proof.
  induction 1 as [|e l He _ IH]; [reflexivity|].
  unfold reports in *. cbn [flat_map]. rewrite IH.
  destruct e; (reflexivity || contradiction).
Qed.

Lemma reports_concat_none {A : Type} (f : A -> list event) (l : list A) :
  (forall x, reports (f x) = []) -> reports (List.concat (map f l)) = [].
Proof.
  intros H. induction l as [|x l IH]; [reflexivity|].
  cbn [map List.concat]. now rewrite reports_app, H, IH.
Qed.

Lemma reports_repeat_kernel (k : kernel) (o len : Z) (n : nat) :
  reports (repeat (EvKernel k o len) n) = [].
Proof. apply reports_none. induction n; cbn; constructor; auto. Qed.

Lemma reports_single_pass (clock : nat -> double) (ks : list kernel)
      (size : Z) (r : nat) :
  reports (single_pass_events clock ks size r)
  = map (fun k => (false, kernel_name k)) ks.
Proof.
  revert r. induction ks as [|k ks IH]; intros r; [reflexivity|].
  cbn [single_pass_events map]. unfold timeit_events, trials_events.
  rewrite !reports_app, IH, reports_concat_none; [reflexivity|].
  intros i. unfold trial_events.
  now rewrite !reports_app, reports_repeat_kernel.
Qed.

Lemma reports_multi_pass (clock : nat -> double) (nt : nat -> Z) (T : Z)
      (ks : list kernel) (size : Z) (r : nat) :
  reports (multi_pass_events clock nt T ks size r)
  = map (fun k => (true, kernel_name k)) ks.
Proof.
  revert r. induction ks as [|k ks IH]; intros r; [reflexivity|].
  cbn [multi_pass_events map]. unfold timeitp_events, ptrials_events.
  rewrite !reports_app, IH, reports_concat_none; [reflexivity|].
  intros i. unfold ptrial_events, region_events.
  rewrite !reports_app, reports_concat_none; [reflexivity|].
  intros tid. apply reports_repeat_kernel.
Qed.

Lemma reports_renice (cfg : config) : reports (renice_events cfg) = [].
Proof.
  unfold renice_events.
  now destruct ((nice_result cfg <? 0) && negb (nice_errno cfg =? 0)).
Qed.

Lemma kernel_name_injective (k1 k2 : kernel) :
  kernel_name k1 = kernel_name k2 -> k1 = k2.
Proof. destruct k1, k2; cbn; intros H; (reflexivity || discriminate). Qed.

(** X3. A run prints exactly one line per kernel of the catalogue and
    pass, in the order of the catalogue, the single-core lines first; the
    names of distinct kernels differ, so no two lines of a pass carry the
    same name. *)
Theorem main_reports_each_kernel_once (clock : nat -> double) (cfg : config) :
  (WITH_OPENMP cfg = true -> thread_count (omp_max_threads cfg)) ->
  reports (trace (final_state (main clock cfg)))
  = map (fun k => (false, kernel_name k)) (catalogue cfg)
    ++ (if WITH_OPENMP cfg
        then map (fun k => (true, kernel_name k)) (catalogue cfg) else [])
  /\ NoDup (map kernel_name (catalogue cfg)).
Proof.
  intros HT. split.
  - rewrite main_ok by assumption. cbn [final_state trace].
    unfold main_events, single_core_events, multi_core_events.
    rewrite !reports_app, reports_renice, reports_single_pass.
    destruct (WITH_OPENMP cfg); [|reflexivity].
    rewrite reports_app, reports_multi_pass. reflexivity.
  - unfold catalogue, when.
    destruct (have_SSE4_1 cfg), (have_AVX cfg); cbn;
      repeat (constructor; [cbn; intuition discriminate|]); constructor.
Qed.

Lemma main_reports_each_kernel_once_witness :
  (WITH_OPENMP four_threads = true -> thread_count (omp_max_threads four_threads))
  /\ List.length (reports (trace (final_state (main still_clock four_threads))))
     = 24%nat.
Proof.
  split; [exact four_threads_ok|].
  rewrite (proj1 (main_reports_each_kernel_once still_clock four_threads four_threads_ok)).
  reflexivity.
Defined.

(** ** The priority adjustment is advisory *)

Lemma forallb_concat_map {A : Type} (p : event -> bool) (f : A -> list event)
      (l : list A) :
  (forall x, forallb p (f x) = true) -> forallb p (List.concat (map f l)) = true.
Proof.
  intros H. induction l as [|x l IH]; [reflexivity|].
  cbn [map List.concat]. now rewrite forallb_app, H, IH.
Qed.

Lemma forallb_repeat_event (p : event -> bool) (e : event) (n : nat) :
  p e = true -> forallb p (repeat e n) = true.
Proof. intros H. induction n; cbn; [reflexivity | now rewrite H]. Qed.

Lemma sampler_events_single_pass (clock : nat -> double) (ks : list kernel)
      (size : Z) (r : nat) :
  forallb is_sampler_event (single_pass_events clock ks size r) = true.
Proof.
  revert r. induction ks as [|k ks IH]; intros r; [reflexivity|].
  cbn [single_pass_events]. unfold timeit_events, trials_events.
  rewrite !forallb_app, IH, forallb_concat_map; [reflexivity|].
  intros i. unfold trial_events.
  now rewrite !forallb_app, forallb_repeat_event.
Qed.

Lemma sampler_events_multi_pass (clock : nat -> double) (nt : nat -> Z) (T : Z)
      (ks : list kernel) (size : Z) (r : nat) :
  forallb is_sampler_event (multi_pass_events clock nt T ks size r) = true.
Proof.
  revert r. induction ks as [|k ks IH]; intros r; [reflexivity|].
  cbn [multi_pass_events]. unfold timeitp_events, ptrials_events.
  rewrite !forallb_app, IH, forallb_concat_map; [reflexivity|].
  intros i. unfold ptrial_events, region_events.
  rewrite !forallb_app, forallb_concat_map; [reflexivity|].
  intros tid. now apply forallb_repeat_event.
Qed.

Lemma filter_sampler_events (l : list event) :
  forallb is_sampler_event l = true ->
  filter (fun e => negb (is_renice e)) l = l /\ ~ In EvWarning l.
Proof.
  intros H. rewrite forallb_forall in H. split.
  - apply forallb_filter_id. apply forallb_forall. intros e He.
    specialize (H e He). now destruct e.
  - intros Hin. specialize (H _ Hin). discriminate.
Qed.

(** X5. A failure to raise the priority only adds a warning: the warning
    is printed exactly when [nice] returns a negative value with [errno]
    set, and whatever [nice] returns the run completes with the same
    events otherwise. *)
Theorem renice_failure_is_advisory
        (clock : nat -> double) (cfg : config) (result errno : Z) :
  (WITH_OPENMP cfg = true -> thread_count (omp_max_threads cfg)) ->
  (In EvWarning (trace (final_state (main clock cfg)))
   <-> nice_result cfg < 0 /\ nice_errno cfg <> 0)
  /\ (exists st, main clock (with_nice cfg result errno) = Done st)
  /\ filter (fun e => negb (is_renice e))
       (trace (final_state (main clock (with_nice cfg result errno))))
     = filter (fun e => negb (is_renice e)) (trace (final_state (main clock cfg))).
Proof.
  intros HT.
  assert (HT' : WITH_OPENMP (with_nice cfg result errno) = true ->
                thread_count (omp_max_threads (with_nice cfg result errno)))
    by exact HT.
  rewrite (main_ok clock (with_nice cfg result errno) HT'), (main_ok clock cfg HT).
  cbn [final_state trace].
  destruct (filter_sampler_events _
              (sampler_events_single_pass clock (catalogue cfg) MAX_SIZE 0))
    as [Fs Ws].
  destruct (filter_sampler_events _
              (sampler_events_multi_pass clock (omp_num_threads cfg)
                 (omp_max_threads cfg) (catalogue cfg)
                 (omp_size (omp_max_threads cfg))
                 (2 * SAMPLES * List.length (catalogue cfg))))
    as [Fm Wm].
  assert (Hfilter : forall c, filter (fun e => negb (is_renice e)) (renice_events c) = []).
  { intros c. unfold renice_events.
    now destruct ((nice_result c <? 0) && negb (nice_errno c =? 0)). }
  split; [|split].
  - assert (Hr : In EvWarning (renice_events cfg)
                 <-> nice_result cfg < 0 /\ nice_errno cfg <> 0).
    { unfold renice_events.
      destruct (Z.ltb_spec (nice_result cfg) 0), (Z.eqb_spec (nice_errno cfg) 0);
        cbn; split; intros H'; try lia; intuition discriminate. }
    assert (Hmulti : ~ In EvWarning
                       (if WITH_OPENMP cfg then multi_core_events clock cfg else [])).
    { destruct (WITH_OPENMP cfg); [|intros []].
      unfold multi_core_events. rewrite in_app_iff. intros [H'|H'].
      - cbn in H'. intuition discriminate.
      - contradiction. }
    assert (H1 : ~ In EvWarning [EvMemset 0 MAX_SIZE]) by (cbn; intuition discriminate).
    assert (H2 : ~ In EvWarning [EvHeader 1]) by (cbn; intuition discriminate).
    unfold main_events, single_core_events. rewrite !in_app_iff. tauto.
  - eexists. reflexivity.
  - unfold main_events, single_core_events.
    rewrite !filter_app, !Hfilter. reflexivity.
Qed.

Lemma renice_failure_is_advisory_witness :
  (WITH_OPENMP four_threads = true -> thread_count (omp_max_threads four_threads))
  /\ (In EvWarning (trace (final_state (main still_clock (with_nice four_threads (-1) 1))))
      <-> nice_result (with_nice four_threads (-1) 1) < 0
          /\ nice_errno (with_nice four_threads (-1) 1) <> 0).
Proof.
  split; [exact four_threads_ok|].
  apply (renice_failure_is_advisory still_clock (with_nice four_threads (-1) 1) 0 0).
  exact four_threads_ok.
Defined.

(** ** How much of the buffer the multi-core pass gives up *)

(** X7. The recomputed [SIZE] drops fewer than [PAGE_SIZE * T] bytes of
    the buffer; it is the whole buffer exactly when [PAGE_SIZE * T]
    divides [MAX_SIZE], and it is 0, so that every kernel is called on an
    empty range, exactly when there are more threads than pages. *)
Theorem omp_size_edge_cases (T : Z) :
  thread_count T ->
  0 <= MAX_SIZE - omp_size T < PAGE_SIZE * T
  /\ (omp_size T = MAX_SIZE <-> (PAGE_SIZE * T | MAX_SIZE))
  /\ (omp_size T = 0 <-> MAX_SIZE / PAGE_SIZE < T)
  /\ (MAX_SIZE / PAGE_SIZE < T ->
      forall i, chunk_of (ull_div (omp_size T) (to_ull T)) i = (0, 0)).
Proof.
  intros HT. destruct (omp_size_closed_form HT) as [Heq Hrange].
  pose proof (to_ull_thread_count HT) as HTu.
  unfold thread_count in HT.
  assert (HPT : 0 < PAGE_SIZE * T) by (rewrite PAGE_SIZE_value; lia).
  pose proof (Z.div_mod MAX_SIZE (PAGE_SIZE * T) ltac:(lia)) as Hdm.
  pose proof (Z.mod_pos_bound MAX_SIZE (PAGE_SIZE * T) HPT) as Hmod.
  assert (Hzero : omp_size T = 0 <-> MAX_SIZE / PAGE_SIZE < T).
  { rewrite Heq. rewrite PAGE_SIZE_value, MAX_SIZE_value in *.
    change (1073741824 / 4096) with 262144. split.
    - intros H0.
      assert (Hq : 1073741824 / (4096 * T) = 0) by nia.
      apply Z.div_small_iff in Hq; lia.
    - intros Hlt. rewrite Z.div_small by lia. lia. }
  split; [lia|]. split; [|split; [exact Hzero|]].
  - rewrite <- Z.mod_divide by lia. lia.
  - intros Hlt i. apply Hzero in Hlt.
    unfold chunk_of, ull_div, ull_mul. rewrite Hlt, HTu.
    rewrite Z.div_0_l by lia. reflexivity.
Qed.

Lemma omp_size_edge_cases_witness :
  thread_count 3 /\ MAX_SIZE - omp_size 3 = 4096
  /\ 0 <= MAX_SIZE - omp_size 3 < PAGE_SIZE * 3.
Proof.
  assert (H : thread_count 3) by (unfold thread_count, INT_MAX; lia).
  split; [exact H|]. split; [reflexivity|].
  apply (omp_size_edge_cases 3 H).
Defined.

(** ** The single-core pass does not depend on multi-core support *)

(** X8. A build with multi-core support first does exactly what a build
    without it does, then runs the multi-core pass: the trace of the
    latter is a prefix of the trace of the former. *)
Theorem single_core_pass_is_prefix (clock : nat -> double) (cfg : config) :
  (WITH_OPENMP cfg = true -> thread_count (omp_max_threads cfg)) ->
  trace (final_state (main clock cfg))
  = trace (final_state (main clock (without_openmp cfg)))
    ++ (if WITH_OPENMP cfg then multi_core_events clock cfg else [])
  /\ Forall (fun e => match e with EvKernel _ offset len => offset = 0 /\ len = MAX_SIZE
                                | _ => True end)
       (trace (final_state (main clock (without_openmp cfg)))).
Proof.
  intros HT. rewrite (main_ok clock cfg HT).
  rewrite (main_ok clock (without_openmp cfg)) by (cbn; discriminate).
  cbn [final_state trace]. unfold main_events at 2 3.
  cbn [WITH_OPENMP without_openmp]. rewrite app_nil_r.
  split; [reflexivity|].
  unfold single_core_events.
  apply Forall_app. split; [repeat constructor|].
  apply Forall_app. split.
  { unfold renice_events. cbn [nice_result nice_errno without_openmp].
    destruct ((nice_result cfg <? 0) && negb (nice_errno cfg =? 0));
      repeat constructor. }
  apply Forall_app. split; [repeat constructor|].
  apply single_pass_events_Forall.
  - intros e He _ _. destruct e; (exact I || discriminate).
  - intros k. split; reflexivity.
Qed.

Lemma single_core_pass_is_prefix_witness :
  (WITH_OPENMP four_threads = true -> thread_count (omp_max_threads four_threads))
  /\ trace (final_state (main still_clock four_threads))
     = trace (final_state (main still_clock (without_openmp four_threads)))
       ++ multi_core_events still_clock four_threads.
Proof.
  split; [exact four_threads_ok|].
  apply (single_core_pass_is_prefix still_clock four_threads four_threads_ok).
Defined.

(** ** NaN and infinite elapsed times *)

Lemma keep_min_nan (m t : double) : is_nan t = true -> keep_min m t = m.
Proof. destruct t; try discriminate. intros _. unfold keep_min. now destruct m. Qed.

Lemma fold_keep_min_filter (l : list double) (m0 : double) :
  fold_left keep_min (filter (fun t => negb (is_nan t)) l) m0
  = fold_left keep_min l m0.
Proof.
  revert m0. induction l as [|t l IH]; intros m0; [reflexivity|].
  cbn [filter fold_left]. destruct (is_nan t) eqn:E; cbn [negb].
  - now rewrite keep_min_nan by assumption.
  - cbn [fold_left]. apply IH.
Qed.

Lemma to_bw_infinite_time (bytes : Z) :
  is_ull bytes -> to_bw bytes INFINITY = zero.
Proof.
  intros Hb. unfold to_bw. pose proof (size_gb_finite bytes Hb) as Hf.
  destruct (div (of_Z bytes) (of_Z BYTES_PER_GB)) as [[|]|sg| |[|] m e];
    try contradiction; reflexivity.
Qed.

(** X9. A trial whose elapsed time is a NaN is ignored by the reduction,
    and the selected minimum is never a NaN; when no trial gives a time
    below [+inf] the minimum stays [INFINITY] and the bandwidth reported
    for a [size_t] byte count is [+0]. *)
Theorem min_elapsed_ignores_nan (bytes : Z) (samples : list double) :
  is_ull bytes ->
  min_elapsed samples = min_elapsed (filter (fun t => negb (is_nan t)) samples)
  /\ is_nan (min_elapsed samples) = false
  /\ (forallb (fun t => is_nan t || negb (ltb t INFINITY)) samples = true ->
      min_elapsed samples = INFINITY
      /\ to_bw bytes (min_elapsed samples) = zero).
Proof.
  intros Hb. split; [|split].
  - unfold min_elapsed. now rewrite fold_keep_min_filter.
  - exact (proj1 (fold_keep_min_spec samples INFINITY eq_refl)).
  - intros Hall.
    assert (Hinf : min_elapsed samples = INFINITY).
    { unfold min_elapsed. rewrite forallb_forall in Hall.
      induction samples as [|t l IH]; [reflexivity|].
      cbn [fold_left].
      assert (Ht : keep_min INFINITY t = INFINITY).
      { specialize (Hall t (or_introl eq_refl)). unfold keep_min.
        destruct (is_nan t) eqn:E.
        - destruct t; try discriminate. reflexivity.
        - cbn [orb] in Hall. now destruct (ltb t INFINITY). }
      rewrite Ht. apply IH. intros x Hx. apply Hall. now right. }
    split; [exact Hinf|]. rewrite Hinf. now apply to_bw_infinite_time.
Qed.

Lemma min_elapsed_ignores_nan_witness :
  is_ull MAX_SIZE
  /\ min_elapsed [S754_nan; literal 5 10; S754_nan] = literal 5 10.
Proof.
  assert (H : is_ull MAX_SIZE) by (unfold is_ull; vm_compute; intuition discriminate).
  split; [exact H|].
  rewrite (proj1 (min_elapsed_ignores_nan MAX_SIZE [S754_nan; literal 5 10; S754_nan] H)).
  vm_compute. reflexivity.
Defined.

(** ** The minimum does not depend on the order of the trials *)

Lemma compare_equal_rank (x y : double) :
  is_nan x = false -> is_nan y = false -> rank x = rank y -> SFeqb x y = true.
Proof.
  intros Hx Hy Hr. destruct (compare_rank x y Hx Hy) as (c & Hc & HLt & HGt).
  unfold SFeqb. rewrite Hc. rewrite Hr in *.
  destruct c; [reflexivity | |].
  - exfalso. destruct HLt as [H _]. specialize (H eq_refl).
    unfold lex_lt in H. lia.
  - exfalso. destruct HGt as [H _]. specialize (H eq_refl).
    unfold lex_lt in H. lia.
Qed.

(** X10. Two sample sets with the same elements, in whatever order and
    multiplicity, have the same minimum: the selected values compare
    equal (they can differ only in the sign of a zero). *)
Theorem min_elapsed_order_independent (l l' : list double) :
  (forall t, In t l <-> In t l') ->
  SFeqb (min_elapsed l) (min_elapsed l') = true
  /\ rank (min_elapsed l) = rank (min_elapsed l').
Proof.
  intros Hsame.
  destruct (fold_keep_min_spec l INFINITY eq_refl) as (Hn & Hsel & Hle & Hlow).
  destruct (fold_keep_min_spec l' INFINITY eq_refl) as (Hn' & Hsel' & Hle' & Hlow').
  fold (min_elapsed l) in *. fold (min_elapsed l') in *.
  assert (Hr : rank (min_elapsed l) = rank (min_elapsed l')).
  { apply lex_le_antisym.
    - destruct Hsel' as [-> | Hin]; [exact Hle|].
      apply Hlow; [now apply Hsame | exact Hn'].
    - destruct Hsel as [-> | Hin]; [exact Hle'|].
      apply Hlow'; [now apply Hsame | exact Hn]. }
  split; [|exact Hr]. now apply compare_equal_rank.
Qed.

Lemma min_elapsed_order_independent_witness :
  (forall t, In t [literal 9 10; literal 5 10] <-> In t [literal 5 10; literal 9 10])
  /\ SFeqb (min_elapsed [literal 9 10; literal 5 10])
           (min_elapsed [literal 5 10; literal 9 10]) = true.
Proof.
  assert (H : forall t, In t [literal 9 10; literal 5 10]
                        <-> In t [literal 5 10; literal 9 10])
    by (intros t; cbn; tauto).
  split; [exact H|].
  apply (min_elapsed_order_independent _ _ H).
Defined.

(** ** A zero elapsed time *)

Lemma rounds_above (x : R) (f : double) (k : Z) :
  rounds x f -> (bpow k <= x)%R -> -1074 <= k -> finite_nonneg f ->
  exists m e, f = S754_finite false m e /\ (bpow k <= value f)%R.
Proof.
  intros (m & e & l & (Hm & He & Hn) & Hloc & ->) Hx Hk Hfin.
  rewrite emin_value in *.
  pose proof (rne_bounds m l) as Hr.
  pose proof (located_scaled x e m l Hloc) as [Hlo Hhi].
  pose proof (bpow_pos e) as Hpe. pose proof (bpow_pos k) as Hpk.
  assert (Hmk : (bpow k <= IZR m * bpow e)%R).
  { destruct (Z_le_gt_dec e k) as [Hek|Hek].
    - assert (Hbk : bpow k = (IZR (2 ^ (k - e)) * bpow e)%R).
      { rewrite <- bpow_IZR, <- bpow_add by lia. f_equal. lia. }
      rewrite Hbk. apply Rmult_le_compat_r; [lra|]. apply IZR_le.
      assert (2 ^ (k - e) < m + 1); [|lia].
      apply lt_IZR. rewrite plus_IZR. rewrite Hbk in Hx. nra.
    - assert (H52 : 2 ^ 52 <= m) by lia.
      assert (Hb : (bpow k <= bpow e)%R) by (apply bpow_le; lia).
      assert (Hm1 : (IZR (2 ^ 52) <= IZR m)%R) by now apply IZR_le.
      change (2 ^ 52) with 4503599627370496 in Hm1. nra. }
  assert (Hm0 : 0 < m).
  { apply lt_IZR. nra. }
  assert (Hrm : (IZR m <= IZR (round_nearest_even m l))%R) by (apply IZR_le; lia).
  set (r := round_nearest_even m l) in *.
  destruct (Z_lt_le_dec r (2 ^ 53)) as [Hlt|Hge].
  - rewrite finalize_small in * by lia.
    destruct (e <=? 971); [|contradiction].
    exists (Z.to_pos r), e. split; [reflexivity|].
    cbn [value]. rewrite Z2Pos.id by lia. nra.
  - assert (Hr53 : r = 2 ^ 53) by lia. rewrite Hr53 in *.
    rewrite finalize_carry in * by lia.
    destruct (e + 1 <=? 971); [|contradiction].
    exists (Z.to_pos (2 ^ 52)), (e + 1). split; [reflexivity|].
    cbn [value]. rewrite Z2Pos.id by lia. rewrite bpow_succ.
    change (2 ^ 52) with 4503599627370496.
    change (2 ^ 53) with 9007199254740992 in Hrm. nra.
Qed.

Lemma value_gib : value (S754_finite false 4503599627370496 (-22)) = bpow 30.
Proof.
  cbn [value]. rewrite (bpow_IZR 30) by lia.
  change (bpow (-22)) with (/ (2 ^ 22))%R.
  change (2 ^ 30) with 1073741824. lra.
Qed.

(** The size in GiB of a non-zero byte count is positive. *)
Lemma size_gb_positive (bytes : Z) :
  is_ull bytes -> 1 <= bytes ->
  exists m e, div (of_Z bytes) (of_Z BYTES_PER_GB) = S754_finite false m e.
Proof.
  intros Hb H1. pose proof (size_gb_finite bytes Hb) as Hfin.
  destruct Hb as [_ Hmax]. rewrite BYTES_PER_GB_double in *.
  assert (Hr := of_Z_rounds bytes ltac:(lia)).
  assert (Hlt : (IZR bytes < bpow 64)%R).
  { rewrite bpow_IZR by lia. now apply IZR_lt. }
  assert (Hge : (bpow 0 <= IZR bytes)%R).
  { rewrite bpow_IZR by lia. now apply IZR_le. }
  destruct (rounds_below _ _ 64 Hr Hlt ltac:(lia)) as [Hf _].
  destruct (rounds_above _ _ 0 Hr Hge ltac:(lia) Hf) as (m & e & Heq & Hval).
  rewrite Heq in *.
  pose proof (div_rounds m 4503599627370496 e (-22)) as Hd.
  rewrite value_gib in Hd.
  assert (Hq : (bpow (-30) <= value (S754_finite false m e) / bpow 30)%R).
  { pose proof (bpow_pos 30) as Hp.
    replace (bpow (-30)) with (bpow 0 / bpow 30)%R.
    - apply Rmult_le_compat_r; [apply Rlt_le; now apply Rinv_0_lt_compat | exact Hval].
    - replace 0 with (-30 + 30) at 1 by lia. rewrite bpow_add. field. lra. }
  destruct (rounds_above _ _ (-30) Hd Hq ltac:(lia) Hfin) as (m' & e' & Heq' & _).
  eauto.
Qed.

(** X11. When the clock does not advance during the trials the elapsed
    time is [+0] and the bandwidth reported for a non-zero byte count is
    [+inf], not an error; for a zero byte count it is a NaN (0/0), while
    over a positive time a zero byte count gives [+0]. *)
Theorem to_bw_zero_time (bytes : Z) :
  is_ull bytes -> 1 <= bytes ->
  to_bw bytes zero = INFINITY
  /\ min_elapsed (repeat zero SAMPLES) = zero
  /\ to_bw 0 zero = S754_nan
  /\ (forall s, positive_double s -> to_bw 0 s = zero).
Proof.
  intros Hb H1. split; [|split; [|split]].
  - unfold to_bw. destruct (size_gb_positive bytes Hb H1) as (m & e & ->).
    reflexivity.
  - reflexivity.
  - reflexivity.
  - intros s Hs. unfold to_bw.
    change (div (of_Z 0) (of_Z BYTES_PER_GB)) with zero.
    now apply div_zero_positive.
Qed.

Lemma to_bw_zero_time_witness :
  is_ull (5 * MAX_SIZE) /\ 1 <= 5 * MAX_SIZE
  /\ to_bw (5 * MAX_SIZE) zero = INFINITY.
Proof.
  assert (H : is_ull (5 * MAX_SIZE)) by (unfold is_ull; vm_compute; intuition discriminate).
  assert (H' : 1 <= 5 * MAX_SIZE) by (vm_compute; discriminate).
  split; [exact H|]. split; [exact H'|].
  apply (to_bw_zero_time (5 * MAX_SIZE) H H').
Defined.

(** ** Exact conversions *)

Lemma binary_round_aux_exact (m : positive) (e : Z) :
  Zdigits2 (Zpos m) = 53 -> -1074 <= e <= 971 ->
  binary_round_aux prec emax false (Zpos m) e loc_Exact = S754_finite false m e.
Proof.
  intros Hd He. rewrite binary_round_aux_finalize. unfold shr_fexp.
  rewrite Hd. replace (fexp prec emax (53 + e) - e) with 0
    by (rewrite fexp_value; lia).
  cbn [shr fst snd shr_record_of_loc shr_m loc_of_shr_record round_nearest_even].
  destruct (Zdigits2_bounds (Zpos m) eq_refl) as (_ & Hlo & Hhi).
  rewrite Hd in Hlo, Hhi. change (53 - 1) with 52 in Hlo.
  rewrite finalize_small by lia.
  replace (e <=? 971) with true by (symmetry; apply Z.leb_le; lia).
  reflexivity.
Qed.

(** Byte counts below [2^53] are converted to [double] without error. *)
Lemma of_Z_exact (z : Z) :
  0 < z < 2 ^ 53 ->
  exists m e, of_Z z = S754_finite false m e
    /\ Zdigits2 (Zpos m) = 53 /\ -52 <= e <= 0
    /\ (IZR (Zpos m) * bpow e = IZR z)%R.
Proof.
  intros [Hz Hlt]. destruct z as [|p|p]; try lia.
  unfold of_Z, binary_normalize, binary_round, shl_align.
  change (Zpos (digits2_pos p)) with (Zdigits2 (Zpos p)).
  destruct (Zdigits2_bounds (Zpos p) eq_refl) as (HD & _).
  assert (HD53 : Zdigits2 (Zpos p) <= 53) by (apply Zdigits2_le; lia).
  set (D := Zdigits2 (Zpos p)) in *.
  rewrite fexp_value.
  replace (Z.max (D + 0 - 53) (-1074)) with (D - 53) by lia.
  destruct (D - 53 - 0) as [|d|d] eqn:E; try lia.
  - exists p, 0. rewrite binary_round_aux_exact by (fold D; lia).
    split; [reflexivity|]. split; [fold D; lia|]. split; [lia|].
    unfold bpow; cbn. ring.
  - change (Pos.iter xO p d) with (shift_pos d p).
    assert (Hmz : Zpos (shift_pos d p) = Zpos p * 2 ^ Zpos d).
    { rewrite shift_pos_correct. change (Z.pow_pos 2 d) with (2 ^ Zpos d). lia. }
    assert (Hdig : Zdigits2 (Zpos (shift_pos d p)) = 53).
    { rewrite Hmz, Zdigits2_shift by lia. fold D. lia. }
    exists (shift_pos d p), (D - 53).
    rewrite binary_round_aux_exact by (try exact Hdig; lia).
    split; [reflexivity|]. split; [exact Hdig|]. split; [lia|].
    rewrite Hmz, mult_IZR, <- bpow_IZR by lia.
    rewrite Rmult_assoc, <- bpow_add.
    replace (Zpos d + (D - 53)) with 0 by lia. unfold bpow; cbn. ring.
Qed.

(** Dividing by [BYTES_PER_GB], a power of two, is exact. *)
Lemma div_by_gib_exact (m : positive) (e : Z) :
  Zdigits2 (Zpos m) = 53 -> -1043 <= e <= 1001 ->
  div (S754_finite false m e) (S754_finite false 4503599627370496 (-22))
  = S754_finite false m (e - 30).
Proof.
  intros Hd He. unfold div. cbn [SFdiv xorb]. unfold SFdiv_core_binary.
  rewrite Hd. change (Zdigits2 4503599627370496) with 53.
  rewrite fexp_value.
  replace (Z.min (Z.max (53 + e - (53 + -22) - 53) (-1074)) (e - -22))
    with (e - 31) by lia.
  replace (e - -22 - (e - 31)) with 53 by lia.
  rewrite Z.shiftl_mul_pow2 by lia.
  assert (Hq : Zpos m * 2 ^ 53 = (2 * Zpos m) * 4503599627370496)
    by (change (2 ^ 53) with 9007199254740992; lia).
  pose proof (Z_div_mod (Zpos m * 2 ^ 53) 4503599627370496 eq_refl) as Hdm.
  destruct (Z.div_eucl (Zpos m * 2 ^ 53) 4503599627370496) as [q r].
  destruct Hdm as [Hqr Hr].
  assert (Hq2 : q = 2 * Zpos m /\ r = 0) by lia.
  destruct Hq2 as [-> ->].
  change (new_location 4503599627370496 0) with loc_Exact.
  rewrite binary_round_aux_finalize. unfold shr_fexp.
  assert (Hd2 : Zdigits2 (2 * Zpos m) = 54).
  { rewrite Z.mul_comm. change 2 with (2 ^ 1) at 1.
    rewrite Zdigits2_shift by lia. lia. }
  rewrite Hd2.
  replace (fexp prec emax (54 + (e - 31)) - (e - 31)) with 1
    by (rewrite fexp_value; lia).
  change (2 * Zpos m) with (Zpos m~0).
  cbn [shr fst snd shr_record_of_loc SpecFloat.iter_pos shr_1 orb shr_m
       loc_of_shr_record round_nearest_even].
  destruct (Zdigits2_bounds (Zpos m) eq_refl) as (_ & Hlo & Hhi).
  rewrite Hd in Hlo, Hhi. change (53 - 1) with 52 in Hlo.
  rewrite finalize_small by lia.
  replace (e - 31 + 1 <=? 971) with true by (symmetry; apply Z.leb_le; lia).
  f_equal. lia.
Qed.

(** For byte counts below [2^53], [to_bw] rounds once: its result is the
    rounding of the real quotient [bytes / 2^30 / secs]. *)
Lemma to_bw_rounds (bytes : Z) (ms : positive) (es : Z) :
  0 < bytes < 2 ^ 53 ->
  rounds (IZR bytes / bpow 30 / value (S754_finite false ms es))
         (to_bw bytes (S754_finite false ms es)).
Proof.
  intros Hb. destruct (of_Z_exact bytes Hb) as (m & e & Heq & Hd & He & Hv).
  unfold to_bw. rewrite Heq, BYTES_PER_GB_double.
  rewrite div_by_gib_exact by (try exact Hd; lia).
  pose proof (div_rounds m ms (e - 30) es) as Hr.
  replace (value (S754_finite false m (e - 30))) with (IZR bytes / bpow 30)%R in Hr;
    [exact Hr|].
  cbn [value]. rewrite <- Hv.
  replace (e - 30) with (e + -30) by lia. rewrite bpow_add.
  pose proof (bpow_pos 30).
  assert (Hinv : (bpow (-30) = / bpow 30)%R).
  { apply Rmult_eq_reg_r with (bpow 30); [|lra].
    rewrite <- bpow_add, Rinv_l by lra. reflexivity. }
  rewrite Hinv. field. lra.
Qed.

(** ** Accuracy of the reported bandwidth *)

Lemma rne_error (t : R) (m : Z) (l : location) :
  located t m l -> (Rabs (IZR (round_nearest_even m l) - t) <= / 2)%R.
Proof.
  intros H. destruct l as [|[]]; cbn [round_nearest_even located] in *.
  - subst t. rewrite Rminus_diag, Rabs_R0. lra.
  - subst t. destruct (Z.even m).
    + apply Rabs_le. lra.
    + rewrite plus_IZR. apply Rabs_le. lra.
  - apply Rabs_le. lra.
  - rewrite plus_IZR. apply Rabs_le. lra.
Qed.

Lemma bpow_neg_53 : (bpow (-53) * 9007199254740992 = 1)%R.
Proof.
  change 9007199254740992%R with (IZR (2 ^ 53)).
  rewrite <- (bpow_IZR 53) by lia. rewrite <- bpow_add. reflexivity.
Qed.

(** In the normal range rounding has a relative error of at most [2^-53]. *)
Lemma rounds_relative_error (x : R) (f : double) :
  rounds x f -> (bpow (-1022) <= x < bpow 1023)%R ->
  exists m e, f = S754_finite false m e
    /\ (Rabs (value f - x) <= x * bpow (-53))%R.
Proof.
  intros (m & e & l & (Hm & He & Hn) & Hloc & ->) [Hlo Hhi].
  rewrite emin_value in *.
  pose proof (rne_bounds m l) as Hr.
  pose proof (rne_error _ _ _ Hloc) as Herr.
  pose proof (located_scaled x e m l Hloc) as [Hxlo Hxhi].
  pose proof (bpow_pos e) as Hpe.
  assert (H52 : 2 ^ 52 <= m).
  { destruct Hn as [->|H]; [|exact H].
    assert (2 ^ 52 < m + 1); [|lia].
    apply lt_IZR. rewrite plus_IZR.
    assert (Hb : bpow (-1022) = (IZR (2 ^ 52) * bpow (-1074))%R).
    { rewrite <- bpow_IZR, <- bpow_add by lia. reflexivity. }
    rewrite Hb in Hlo. nra. }
  assert (Hm52 : (IZR (2 ^ 52) <= IZR m)%R) by now apply IZR_le.
  change (2 ^ 52) with 4503599627370496 in Hm52.
  assert (He971 : e < 971).
  { destruct (Z_lt_le_dec e 971) as [|Hge]; [assumption | exfalso].
    assert (Hb : (bpow 1023 <= bpow (52 + e))%R) by (apply bpow_le; lia).
    rewrite bpow_add, (bpow_IZR 52) in Hb by lia.
    change (2 ^ 52) with 4503599627370496 in Hb. nra. }
  assert (Hx : x = (x / bpow e * bpow e)%R) by (field; lra).
  set (t := (x / bpow e)%R) in *.
  assert (Ht52 : (4503599627370496 <= t)%R).
  { apply located_bounds in Hloc. lra. }
  pose proof bpow_neg_53 as H53.
  set (r := round_nearest_even m l) in *.
  assert (Hval : (Rabs (IZR r * bpow e - x) <= x * bpow (-53))%R).
  { rewrite Hx at 1. rewrite <- Rmult_minus_distr_r, Rabs_mult.
    rewrite (Rabs_pos_eq (bpow e)) by lra.
    assert (Hb : (/ 2 * bpow e <= x * bpow (-53))%R).
    { rewrite Hx. set (u := bpow (-53)) in *. nra. }
    apply Rle_trans with (/ 2 * bpow e)%R; [|exact Hb].
    apply Rmult_le_compat_r; lra. }
  destruct (Z_lt_le_dec r (2 ^ 53)) as [Hlt|Hge].
  - rewrite finalize_small by lia.
    replace (e <=? 971) with true by (symmetry; apply Z.leb_le; lia).
    exists (Z.to_pos r), e. split; [reflexivity|].
    cbn [value]. rewrite Z2Pos.id by lia.
    replace (1 * IZR r * bpow e)%R with (IZR r * bpow e)%R by ring. exact Hval.
  - assert (Hr53 : r = 2 ^ 53) by lia.
    rewrite Hr53 in *. rewrite finalize_carry by lia.
    replace (e + 1 <=? 971) with true by (symmetry; apply Z.leb_le; lia).
    exists (Z.to_pos (2 ^ 52)), (e + 1). split; [reflexivity|].
    cbn [value]. rewrite Z2Pos.id by lia. rewrite bpow_succ.
    replace (1 * IZR (2 ^ 52) * (2 * bpow e))%R with (IZR (2 ^ 53) * bpow e)%R;
      [exact Hval|].
    change (2 ^ 52) with 4503599627370496.
    change (2 ^ 53) with 9007199254740992. ring.
Qed.

(** X12. For a byte count below [2^53] (as [SIZE * TIMES] always is) and
    a positive finite elapsed time, the reported bandwidth is the real
    quotient [bytes / 2^30 / secs] rounded once: when that quotient lies
    in the normal range of binary64 the result is finite and differs from
    it by a relative error of at most [2^-53]. *)
Theorem to_bw_accuracy (bytes : Z) (ms : positive) (es : Z) :
  0 < bytes < 2 ^ 53 ->
  (bpow (-1022) <= IZR bytes / bpow 30 / value (S754_finite false ms es)
   < bpow 1023)%R ->
  exists m e,
    to_bw bytes (S754_finite false ms es) = S754_finite false m e
    /\ (Rabs (value (to_bw bytes (S754_finite false ms es))
              - IZR bytes / bpow 30 / value (S754_finite false ms es))
        <= IZR bytes / bpow 30 / value (S754_finite false ms es) * bpow (-53))%R.
Proof.
  intros Hb Hrange. apply rounds_relative_error; [|exact Hrange].
  now apply to_bw_rounds.
Qed.

Lemma to_bw_accuracy_witness :
  0 < 5 * BYTES_PER_GB < 2 ^ 53
  /\ exists m e,
       to_bw (5 * BYTES_PER_GB) (S754_finite false 4503599627370496 (-53))
       = S754_finite false m e.
Proof.
  assert (Hb : 0 < 5 * BYTES_PER_GB < 2 ^ 53) by (vm_compute; split; reflexivity).
  split; [exact Hb|].
  assert (Hx : (IZR (5 * BYTES_PER_GB) / bpow 30
                / value (S754_finite false 4503599627370496 (-53)) = 10)%R).
  { cbn [value]. rewrite (bpow_IZR 30) by lia.
    change (5 * BYTES_PER_GB) with 5368709120.
    change (2 ^ 30) with 1073741824.
    pose proof bpow_neg_53 as H53. pose proof (bpow_pos (-53)) as Hp.
    assert (Hinv : bpow (-53) = (/ 9007199254740992)%R).
    { apply Rmult_eq_reg_r with 9007199254740992%R; [|lra].
      rewrite H53. field. }
    rewrite Hinv. field. }
  assert (Hrange : (bpow (-1022) <= IZR (5 * BYTES_PER_GB) / bpow 30
                      / value (S754_finite false 4503599627370496 (-53))
                    < bpow 1023)%R).
  { rewrite Hx. split.
    - apply Rle_trans with (bpow 0); [apply bpow_le; lia|].
      rewrite bpow_IZR by lia. cbn. lra.
    - apply Rlt_le_trans with (bpow 4); [|apply bpow_le; lia].
      rewrite bpow_IZR by lia. cbn. lra. }
  destruct (to_bw_accuracy (5 * BYTES_PER_GB) 4503599627370496 (-53) Hb Hrange)
    as (m & e & Heq & _).
  exists m, e. exact Heq.
Defined.

(** ** [to_bw] is monotone in the byte count *)

Lemma nonneg_rank (f : double) : nonneg f -> lex_le (0, 0, 0) (rank f).
Proof.
  destruct f as [s|s| |s m e]; cbn; intros H; try contradiction; subst;
    unfold lex_le; cbn; lia.
Qed.

(** X13. More bytes in the same time never give a smaller bandwidth:
    for byte counts below [2^53] and a strictly positive elapsed time,
    [to_bw] is monotone in the byte count. *)
Theorem to_bw_monotone_in_bytes (b1 b2 : Z) (s : double) :
  0 <= b1 <= b2 -> b2 < 2 ^ 53 -> positive_double s ->
  leb (to_bw b1 s) (to_bw b2 s) = true.
Proof.
  intros [H0 H12] H53 Hs.
  assert (Hu1 : is_ull b1) by (unfold is_ull, ULL_MODULUS; lia).
  assert (Hu2 : is_ull b2) by (unfold is_ull, ULL_MODULUS; lia).
  pose proof (to_bw_nonneg b1 s Hu1 Hs) as N1.
  pose proof (to_bw_nonneg b2 s Hu2 Hs) as N2.
  apply leb_rank; [now apply nonneg_not_nan | now apply nonneg_not_nan |].
  destruct (Z.eq_dec b1 0) as [->|Hb1].
  - replace (to_bw 0 s) with zero; [now apply nonneg_rank|].
    unfold to_bw. change (div (of_Z 0) (of_Z BYTES_PER_GB)) with zero.
    symmetry. now apply div_zero_positive.
  - destruct (positive_double_cases s Hs) as [->|(ms & es & -> & _)].
    + rewrite !to_bw_infinite_time by assumption. apply lex_le_refl.
    + apply rounds_monotone with
        (x := (IZR b1 / bpow 30 / value (S754_finite false ms es))%R)
        (y := (IZR b2 / bpow 30 / value (S754_finite false ms es))%R);
        [| apply to_bw_rounds; lia | apply to_bw_rounds; lia].
      assert (Hv : (0 < value (S754_finite false ms es))%R).
      { cbn [value]. pose proof (bpow_pos es).
        assert (0 < IZR (Zpos ms))%R by (apply IZR_lt; lia). nra. }
      pose proof (bpow_pos 30) as Hp.
      assert (Hb : (IZR b1 <= IZR b2)%R) by now apply IZR_le.
      apply Rmult_le_compat_r; [apply Rlt_le; now apply Rinv_0_lt_compat|].
      apply Rmult_le_compat_r; [apply Rlt_le; now apply Rinv_0_lt_compat|].
      exact Hb.
Qed.

Lemma to_bw_monotone_in_bytes_witness :
  0 <= MAX_SIZE <= 5 * MAX_SIZE /\ 5 * MAX_SIZE < 2 ^ 53
  /\ positive_double (literal 5 10)
  /\ leb (to_bw MAX_SIZE (literal 5 10)) (to_bw (5 * MAX_SIZE) (literal 5 10)) = true.
Proof.
  assert (H1 : 0 <= MAX_SIZE <= 5 * MAX_SIZE) by (vm_compute; split; discriminate).
  assert (H2 : 5 * MAX_SIZE < 2 ^ 53) by reflexivity.
  assert (H3 : positive_double (literal 5 10)) by (vm_compute; split; reflexivity).
  split; [exact H1|]. split; [exact H2|]. split; [exact H3|].
  apply (to_bw_monotone_in_bytes MAX_SIZE (5 * MAX_SIZE) (literal 5 10) H1 H2 H3).
Defined.

(** ** Rounded results are well-formed doubles *)

Lemma finalize_valid (r e : Z) :
  0 <= r <= 2 ^ 53 -> -1074 <= e -> (e = -1074 \/ 2 ^ 52 <= r) ->
  is_double (finalize r e).
Proof.
  intros Hr He Hn. unfold is_double.
  destruct (Z.eq_dec r 0) as [->|Hr0]; [now rewrite finalize_zero|].
  destruct (Z_lt_le_dec r (2 ^ 53)) as [Hlt|Hge].
  - rewrite finalize_small by lia.
    destruct (Z.leb_spec e 971) as [He'|]; [|reflexivity].
    cbn [valid_binary]. unfold SpecFloat.bounded, canonical_mantissa.
    apply andb_true_iff. split; [|apply Z.leb_le; exact He'].
    apply Z.eqb_eq. rewrite fexp_value.
    change (Zpos (digits2_pos (Z.to_pos r))) with (Zdigits2 (Zpos (Z.to_pos r))).
    rewrite Z2Pos.id by lia.
    assert (Hd : Zdigits2 r <= 53) by (apply Zdigits2_le; lia).
    assert (Hd' : 2 ^ 52 <= r -> 53 <= Zdigits2 r).
    { intros H. pose proof (Zdigits2_ge r 52 H). lia. }
    lia.
  - replace r with (2 ^ 53) by lia. rewrite finalize_carry by lia.
    destruct (Z.leb_spec (e + 1) 971) as [He'|]; [|reflexivity].
    cbn [valid_binary]. unfold SpecFloat.bounded, canonical_mantissa.
    apply andb_true_iff. split; [|apply Z.leb_le; exact He'].
    apply Z.eqb_eq. rewrite fexp_value.
    change (Zpos (digits2_pos (Z.to_pos (2 ^ 52)))) with 53. lia.
Qed.

Lemma rounds_valid (x : R) (f : double) : rounds x f -> is_double f.
Proof.
  intros (m & e & l & (Hm & He & Hn) & _ & ->). rewrite emin_value in *.
  pose proof (rne_bounds m l). apply finalize_valid; lia.
Qed.

Lemma rounds_positive (x : R) (f : double) :
  rounds x f -> (bpow (-1074) <= x)%R -> positive_double f.
Proof.
  intros Hr Hx. split; [now apply (rounds_valid x)|].
  destruct (rounds_nonneg x f Hr) as [Hnn _].
  destruct Hr as (m & e & l & (Hm & He & Hn) & Hloc & ->).
  rewrite emin_value in *.
  pose proof (rne_bounds m l) as Hb.
  assert (Hm0 : 0 < m).
  { destruct (Z.eq_dec m 0) as [->|]; [exfalso | lia].
    destruct Hn as [->|]; [|lia].
    pose proof (located_scaled x (-1074) 0 l Hloc) as [_ Hhi]. lra. }
  set (r := round_nearest_even m l) in *.
  destruct (Z_lt_le_dec r (2 ^ 53)) as [Hlt|Hge].
  - rewrite finalize_small by lia. now destruct (e <=? 971).
  - replace r with (2 ^ 53) by lia. rewrite finalize_carry by lia.
    now destruct (e + 1 <=? 971).
Qed.

(** ** [binary_round] rounds *)

Lemma binary_round_rounds (p : positive) (e : Z) :
  rounds (IZR (Zpos p) * bpow e) (binary_round prec emax false p e).
Proof.
  unfold binary_round, shl_align.
  change (Zpos (digits2_pos p)) with (Zdigits2 (Zpos p)).
  set (D := Zdigits2 (Zpos p)).
  pose proof (bpow_pos e) as Hpe.
  destruct (fexp prec emax (D + e) - e) as [|d|d] eqn:E.
  - apply binary_round_aux_rounds; [lia | |].
    + cbn [located]. field. lra.
    + fold D. lia.
  - apply binary_round_aux_rounds; [lia | |].
    + cbn [located]. field. lra.
    + fold D. lia.
  - change (Pos.iter xO p d) with (shift_pos d p).
    assert (Hmz : Zpos (shift_pos d p) = Zpos p * 2 ^ Zpos d).
    { rewrite shift_pos_correct. change (Z.pow_pos 2 d) with (2 ^ Zpos d). lia. }
    rewrite Hmz. set (e' := fexp prec emax (D + e)) in *.
    assert (He' : e = e' + Zpos d) by lia.
    apply binary_round_aux_rounds.
    + assert (0 < 2 ^ Zpos d) by (apply Z.pow_pos_nonneg; lia). lia.
    + cbn [located]. rewrite mult_IZR, <- bpow_IZR by lia.
      rewrite He', bpow_add. pose proof (bpow_pos e'). pose proof (bpow_pos (Zpos d)).
      field. lra.
    + rewrite Zdigits2_shift by lia. fold D.
      replace (D + Zpos d + e') with (D + e) by lia. fold e'. lia.
Qed.

(** ** The elapsed time of a trial *)

Lemma shl_align_value (m : positive) (e ez : Z) :
  ez <= e -> Zpos (fst (shl_align m e ez)) = Zpos m * 2 ^ (e - ez).
Proof.
  intros H. unfold shl_align. destruct (ez - e) as [|d|d] eqn:E; cbn [fst].
  - replace (e - ez) with 0 by lia. lia.
  - lia.
  - change (Pos.iter xO m d) with (shift_pos d m).
    rewrite shift_pos_correct. change (Z.pow_pos 2 d) with (2 ^ Zpos d).
    replace (e - ez) with (Zpos d) by lia. lia.
Qed.

Lemma valid_finite_value_le (m1 m2 : positive) (e1 e2 : Z) :
  is_double (S754_finite false m1 e1) -> is_double (S754_finite false m2 e2) ->
  leb (S754_finite false m1 e1) (S754_finite false m2 e2) = true ->
  (IZR (Zpos m1) * bpow e1 <= IZR (Zpos m2) * bpow e2)%R.
Proof.
  intros H1 H2 Hle. apply leb_rank in Hle; [|reflexivity|reflexivity].
  apply normal_form_value_le; [now apply bounded_normal_form ..|exact Hle].
Qed.

(** With readings [before <= after] the difference [after - before] is
    [+0] or strictly positive: never negative, never a NaN. *)
Lemma sub_ordered (before after : double) :
  is_double before -> finite_nonneg before ->
  is_double after -> finite_nonneg after ->
  leb before after = true ->
  plausible_elapsed (sub after before).
Proof.
  intros Vb Fb Va Fa Hle. unfold plausible_elapsed.
  destruct before as [[|]|sb| |[|] mb eb]; try contradiction;
    destruct after as [[|]|sa| |[|] ma ea]; try contradiction.
  - left. reflexivity.
  - right. cbn. split; [exact Va | reflexivity].
  - discriminate.
  - pose proof (valid_finite_value_le mb ma eb ea Vb Va Hle) as Hv.
    unfold sub. cbn [SFsub cond_Zopp].
    set (ez := Z.min ea eb).
    rewrite (shl_align_value ma ea ez) by (unfold ez; lia).
    rewrite (shl_align_value mb eb ez) by (unfold ez; lia).
    set (d := Zpos ma * 2 ^ (ea - ez) - Zpos mb * 2 ^ (eb - ez)).
    assert (Hd : (IZR d * bpow ez
                  = IZR (Zpos ma) * bpow ea - IZR (Zpos mb) * bpow eb)%R).
    { unfold d. rewrite minus_IZR, !mult_IZR.
      rewrite <- !bpow_IZR by (unfold ez; lia).
      rewrite Rmult_minus_distr_r, !Rmult_assoc, <- !bpow_add.
      replace (ea - ez + ez) with ea by lia.
      replace (eb - ez + ez) with eb by lia. reflexivity. }
    pose proof (bpow_pos ez) as Hpz.
    assert (Hd0 : 0 <= d).
    { apply le_IZR. nra. }
    destruct d as [|p|p] eqn:Ed; [left; reflexivity | right | lia].
    cbn [binary_normalize].
    apply (rounds_positive (IZR (Zpos p) * bpow ez)); [apply binary_round_rounds|].
    assert (He : -1074 <= ez).
    { apply bounded_normal_form in Vb. apply bounded_normal_form in Va.
      destruct Vb as (_ & Hb & _), Va as (_ & Ha & _).
      rewrite emin_value in *. unfold ez. lia. }
    assert (H1 : (1 <= IZR (Zpos p))%R) by (apply IZR_le; lia).
    assert (Hb : (bpow (-1074) <= bpow ez)%R) by now apply bpow_le.
    nra.
Qed.

(** ** With a monotonic clock no report is negative or a NaN *)

Lemma elapsed_plausible (clock : nat -> double) (r : nat) :
  monotonic clock -> plausible_elapsed (elapsed_at clock r).
Proof.
  intros Hc. unfold elapsed_at.
  destruct (Hc r) as (Vb & Fb & Hle). destruct (Hc (S r)) as (Va & Fa & _).
  now apply sub_ordered.
Qed.

Lemma plausible_not_nan (t : double) : plausible_elapsed t -> is_nan t = false.
Proof. intros [->|H]; [reflexivity | now apply positive_double_not_nan]. Qed.

Lemma min_elapsed_plausible (samples : list double) :
  Forall plausible_elapsed samples -> plausible_elapsed (min_elapsed samples).
Proof.
  intros H. rewrite Forall_forall in H.
  destruct (min_elapsed_selected samples) as [Hin | ->]; [now apply H|].
  right. split; reflexivity.
Qed.

Lemma to_bw_plausible (bytes : Z) (t : double) :
  is_ull bytes -> 1 <= bytes -> plausible_elapsed t -> nonneg (to_bw bytes t).
Proof.
  intros Hb H1 [->|Ht].
  - unfold to_bw. destruct (size_gb_positive bytes Hb H1) as (m & e & ->).
    reflexivity.
  - now apply to_bw_nonneg.
Qed.

Lemma elapsed_times_plausible (clock : nat -> double) (r n : nat) :
  monotonic clock -> Forall plausible_elapsed (elapsed_times clock r n).
Proof.
  intros Hc. unfold elapsed_times. apply Forall_forall. intros t Ht.
  apply in_map_iff in Ht. destruct Ht as (i & <- & _).
  now apply elapsed_plausible.
Qed.

Lemma reported_bandwidths_app (l1 l2 : list event) :
  reported_bandwidths (l1 ++ l2) = reported_bandwidths l1 ++ reported_bandwidths l2.
Proof. apply flat_map_app. Qed.

Lemma reported_bandwidths_none (l : list event) :
  reports l = [] -> reported_bandwidths l = [].
Proof.
  induction l as [|e l IH]; [reflexivity|].
  unfold reports, reported_bandwidths in *. cbn [flat_map].
  destruct e; cbn [app]; try exact IH. discriminate.
Qed.

Lemma reported_bandwidths_single_pass (clock : nat -> double) (ks : list kernel)
      (size : Z) (r : nat) :
  monotonic clock -> 1 <= size <= MAX_SIZE ->
  Forall nonneg (reported_bandwidths (single_pass_events clock ks size r)).
Proof.
  intros Hc Hs. revert r. induction ks as [|k ks IH]; intros r; [constructor|].
  cbn [single_pass_events]. unfold timeit_events.
  rewrite !reported_bandwidths_app. apply Forall_app. split; [|apply IH].
  rewrite reported_bandwidths_none.
  - cbn [reported_bandwidths flat_map app]. constructor; [|constructor].
    assert (Hm : ull_mul size (Z.of_nat TIMES) = size * 5).
    { unfold ull_mul. apply to_ull_small. rewrite MAX_SIZE_value in Hs.
      unfold is_ull, ULL_MODULUS. cbn. lia. }
    rewrite Hm. apply to_bw_plausible.
    + rewrite MAX_SIZE_value in Hs. unfold is_ull, ULL_MODULUS. lia.
    + lia.
    + now apply min_elapsed_plausible, elapsed_times_plausible.
  - unfold trials_events. apply reports_concat_none. intros i.
    unfold trial_events. now rewrite !reports_app, reports_repeat_kernel.
Qed.

Lemma reported_bandwidths_multi_pass (clock : nat -> double) (nt : nat -> Z) (T : Z)
      (ks : list kernel) (size : Z) (r : nat) :
  monotonic clock -> 1 <= size <= MAX_SIZE ->
  Forall nonneg (reported_bandwidths (multi_pass_events clock nt T ks size r)).
Proof.
  intros Hc Hs. revert r. induction ks as [|k ks IH]; intros r; [constructor|].
  cbn [multi_pass_events]. unfold timeitp_events.
  rewrite !reported_bandwidths_app. apply Forall_app. split; [|apply IH].
  rewrite reported_bandwidths_none.
  - cbn [reported_bandwidths flat_map app]. constructor; [|constructor].
    assert (Hm : ull_mul size (Z.of_nat TIMES) = size * 5).
    { unfold ull_mul. apply to_ull_small. rewrite MAX_SIZE_value in Hs.
      unfold is_ull, ULL_MODULUS. cbn. lia. }
    rewrite Hm. apply to_bw_plausible.
    + rewrite MAX_SIZE_value in Hs. unfold is_ull, ULL_MODULUS. lia.
    + lia.
    + now apply min_elapsed_plausible, elapsed_times_plausible.
  - unfold ptrials_events. apply reports_concat_none. intros i.
    unfold ptrial_events, region_events.
    rewrite !reports_app, reports_concat_none; [reflexivity|].
    intros tid. apply reports_repeat_kernel.
Qed.

(** X14. With a monotonic clock the elapsed time of every trial is [+0]
    or strictly positive, so every bandwidth a run reports is a
    non-negative number or [+inf], never negative and never a NaN,
    provided the multi-core pass has no more threads than the buffer has
    pages. *)
Theorem monotonic_clock_reports_nonneg (clock : nat -> double) (cfg : config) :
  monotonic clock ->
  (WITH_OPENMP cfg = true -> 1 <= omp_max_threads cfg <= MAX_SIZE / PAGE_SIZE) ->
  (forall r, plausible_elapsed (sub (clock (S r)) (clock r)))
  /\ Forall nonneg (reported_bandwidths (trace (final_state (main clock cfg)))).
Proof.
  intros Hc HT. split; [intros r; now apply elapsed_plausible|].
  assert (HT' : WITH_OPENMP cfg = true -> thread_count (omp_max_threads cfg)).
  { intros H. specialize (HT H). unfold thread_count, INT_MAX.
    change (MAX_SIZE / PAGE_SIZE) with 262144 in HT. lia. }
  rewrite main_ok by assumption. cbn [final_state trace].
  unfold main_events, single_core_events.
  rewrite !reported_bandwidths_app.
  apply Forall_app. split.
  - apply Forall_app. split; [constructor|].
    apply Forall_app. split.
    { rewrite reported_bandwidths_none; [constructor | apply reports_renice]. }
    apply Forall_app. split; [constructor|].
    apply reported_bandwidths_single_pass; [assumption|].
    rewrite MAX_SIZE_value. lia.
  - destruct (WITH_OPENMP cfg) eqn:E; [|constructor].
    specialize (HT eq_refl). specialize (HT' eq_refl).
    unfold multi_core_events. rewrite reported_bandwidths_app.
    apply Forall_app. split; [constructor|].
    apply reported_bandwidths_multi_pass; [assumption|].
    destruct (omp_size_closed_form HT') as [Heq Hrange].
    split; [|lia].
    assert (Hq : 1 <= MAX_SIZE / (PAGE_SIZE * omp_max_threads cfg)).
    { apply Z.div_le_lower_bound.
      - rewrite PAGE_SIZE_value. lia.
      - change (MAX_SIZE / PAGE_SIZE) with 262144 in HT.
        rewrite PAGE_SIZE_value, MAX_SIZE_value. lia. }
    rewrite Heq. rewrite PAGE_SIZE_value in *. nia.
Qed.

Lemma still_clock_monotonic : monotonic still_clock.
Proof. intros n. repeat split. Qed.

Lemma monotonic_clock_reports_nonneg_witness :
  monotonic still_clock
  /\ (WITH_OPENMP four_threads = true ->
      1 <= omp_max_threads four_threads <= MAX_SIZE / PAGE_SIZE)
  /\ Forall nonneg
       (reported_bandwidths (trace (final_state (main still_clock four_threads)))).
Proof.
  assert (H : WITH_OPENMP four_threads = true ->
              1 <= omp_max_threads four_threads <= MAX_SIZE / PAGE_SIZE)
    by (intros _; vm_compute; split; discriminate).
  split; [exact still_clock_monotonic|]. split; [exact H|].
  apply (monotonic_clock_reports_nonneg still_clock four_threads
           still_clock_monotonic H).
Defined.

(** ** One thread: the two samplers measure the same *)

Lemma team_size_one (granted : Z) : team_size 1 granted = 1.
Proof. unfold team_size. lia. Qed.

Lemma region_events_one_thread (k : kernel) (size : Z) :
  region_events 1 1 k size = repeat (EvKernel k 0 size) TIMES.
Proof.
  unfold region_events. change (team 1) with [0].
  cbn [map List.concat]. rewrite app_nil_r.
  unfold chunk_of, ull_div, ull_mul. cbn [fst snd].
  change (to_ull 1) with 1. rewrite Z.div_1_r, Z.mul_0_r. reflexivity.
Qed.

Lemma strip_sync_app (l1 l2 : list event) :
  strip_sync (l1 ++ l2) = strip_sync l1 ++ strip_sync l2.
Proof. apply filter_app. Qed.

Lemma strip_sync_repeat_kernel (k : kernel) (o len : Z) (n : nat) :
  strip_sync (repeat (EvKernel k o len) n) = repeat (EvKernel k o len) n.
Proof. induction n as [|n IH]; [reflexivity|]. cbn. f_equal. exact IH. Qed.

Lemma as_single_core_repeat_kernel (k : kernel) (o len : Z) (n : nat) :
  map as_single_core (repeat (EvKernel k o len) n) = repeat (EvKernel k o len) n.
Proof. induction n as [|n IH]; [reflexivity|]. cbn. f_equal. exact IH. Qed.

Lemma ptrials_one_thread (nt : nat -> Z) (k : kernel) (size : Z) (r n : nat) :
  map as_single_core (strip_sync (ptrials_events nt 1 k size r n))
  = trials_events k size r n.
Proof.
  induction n as [|n IH]; [reflexivity|].
  rewrite ptrials_events_S, trials_events_S, strip_sync_app, map_app, IH.
  f_equal. unfold ptrial_events, trial_events.
  rewrite team_size_one, region_events_one_thread. reflexivity.
Qed.

(** X15. With a single thread [timeitp] never aborts and measures exactly
    what [timeit] measures: apart from the evaluations of its assert and
    its barriers it reads the clock and calls the kernel over [[0, SIZE)]
    in the same order, and reports the same bandwidth.  (With
    [omp_get_max_threads () = 1] every team is the master alone.) *)
Theorem one_thread_timeitp_matches_timeit
        (clock : nat -> double) (nt : nat -> Z) (k : kernel) (st : state) :
  exists evs evs',
    trace (timeit clock k st) = trace st ++ evs
    /\ timeitp clock nt 1 k st = Done (advance st (2 * SAMPLES) evs')
    /\ map as_single_core (strip_sync evs') = evs
    /\ reported_bandwidths evs' = reported_bandwidths evs
    /\ reads (timeit clock k st) = reads (advance st (2 * SAMPLES) evs').
Proof.
  exists (timeit_events clock k (SIZE st) (reads st)),
         (timeitp_events clock nt 1 k (SIZE st) (reads st)).
  assert (Hrem : ull_rem (SIZE st) (to_ull 1) = 0).
  { unfold ull_rem. change (to_ull 1) with 1. apply Z.mod_1_r. }
  split; [now rewrite timeit_advance|].
  split; [now apply timeitp_ok|].
  split; [|split].
  - unfold timeitp_events, timeit_events.
    rewrite strip_sync_app, map_app, ptrials_one_thread. reflexivity.
  - unfold timeitp_events, timeit_events.
    rewrite !reported_bandwidths_app.
    rewrite !(reported_bandwidths_none (trials_events _ _ _ _)),
            !(reported_bandwidths_none (ptrials_events _ _ _ _ _ _));
      [reflexivity | |].
    + unfold ptrials_events. apply reports_concat_none. intros i.
      unfold ptrial_events, region_events.
      rewrite !reports_app, reports_concat_none; [reflexivity|].
      intros tid. apply reports_repeat_kernel.
    + unfold trials_events. apply reports_concat_none. intros i.
      unfold trial_events. now rewrite !reports_app, reports_repeat_kernel.
  - now rewrite timeit_advance.
Qed.

(** * The parallel region and its team *)

(** ** The ranges the threads of a team are handed *)

Lemma filter_kernel_repeat (k : kernel) (o len : Z) (n : nat) :
  filter is_kernel (repeat (EvKernel k o len) n) = repeat (EvKernel k o len) n.
Proof. induction n as [|n IH]; [reflexivity|]. cbn. now rewrite IH. Qed.

Lemma filter_concat_map {A B : Type} (p : B -> bool) (f : A -> list B) (l : list A) :
  filter p (List.concat (map f l)) = List.concat (map (fun x => filter p (f x)) l).
Proof.
  induction l as [|x l IH]; [reflexivity|].
  cbn [map List.concat]. now rewrite filter_app, IH.
Qed.

Lemma region_events_exact (n T S : Z) (k : kernel) :
  thread_count T -> is_ull S -> n <= T ->
  region_events n T k S
  = List.concat (map (fun i => repeat (EvKernel k (i * (S / T)) (S / T)) TIMES)
                   (team n)).
Proof.
  intros HT HS Hn. unfold region_events. f_equal. apply map_ext_in.
  intros i Hi. apply In_team in Hi.
  assert (Hi' : 0 <= i < T) by lia.
  now rewrite (chunk_of_exact HT HS Hi').
Qed.

Lemma filter_kernel_region (n T S : Z) (k : kernel) :
  filter is_kernel (region_events n T k S) = region_events n T k S.
Proof.
  unfold region_events. rewrite filter_concat_map. apply f_equal.
  apply map_ext. intros tid. apply filter_kernel_repeat.
Qed.

Lemma filter_kernel_ptrial (nt : nat -> Z) (T S : Z) (k : kernel) (r : nat) :
  filter is_kernel (ptrial_events nt T k S r)
  = region_events (team_size T (nt r)) T k S.
Proof.
  unfold ptrial_events. rewrite !filter_app, filter_kernel_region.
  cbn [filter is_kernel app]. now rewrite app_nil_r.
Qed.

Lemma filter_kernel_timeitp (clock : nat -> double) (nt : nat -> Z) (T S : Z)
      (k : kernel) (r : nat) :
  filter is_kernel (timeitp_events clock nt T k S r)
  = List.concat (map (fun j => region_events (team_size T (nt (r + 2 * j)%nat)) T k S)
                   (seq 0 SAMPLES)).
Proof.
  unfold timeitp_events, ptrials_events.
  rewrite filter_app, filter_concat_map. cbn [filter is_kernel].
  rewrite app_nil_r. f_equal. apply map_ext. intros j.
  apply filter_kernel_ptrial.
Qed.

(** C2. For a thread count [T >= 1] (what [omp_get_max_threads ()]
    returns) and an Active Size [S] that [T] divides, [timeitp] hands
    thread [i] of each team the byte range [[i * S/T, (i+1) * S/T)], in
    every one of its [TIMES] calls of every trial, whatever team the
    runtime forms; the [T] ranges are pairwise disjoint and their union is
    exactly [[0, S)], so that a region run by all [T] threads covers
    [[0, S)] and a smaller team a prefix of it. *)
Theorem partition_correct
        (clock : nat -> double) (nt : nat -> Z) (T : Z) (k : kernel) (st : state) :
  thread_count T -> is_ull (SIZE st) -> ull_rem (SIZE st) (to_ull T) = 0 ->
  let S := SIZE st in
  let chunk i := chunk_of (ull_div S (to_ull T)) i in
  let n j := team_size T (nt (reads st + 2 * j)%nat) in
  (exists st',
      timeitp clock nt T k st = Done st'
      /\ filter is_kernel (trace st')
         = filter is_kernel (trace st)
           ++ List.concat
                (map (fun j =>
                        List.concat
                          (map (fun i => repeat (EvKernel k (i * (S / T)) (S / T)) TIMES)
                             (team (n j))))
                   (seq 0 SAMPLES)))
  /\ (forall j i, 1 <= n j <= T /\ (In i (team (n j)) <-> 0 <= i < n j))
  /\ (forall i, 0 <= i < T ->
        chunk i = (i * (S / T), S / T)
        /\ fst (chunk i) + snd (chunk i) = (i + 1) * (S / T))
  /\ (forall i j b, 0 <= i < T -> 0 <= j < T ->
        in_range (chunk i) b -> in_range (chunk j) b -> i = j)
  /\ (forall b, 0 <= b < S <-> exists i, 0 <= i < T /\ in_range (chunk i) b)
  /\ (forall j b, (exists i, In i (team (n j)) /\ in_range (chunk i) b)
                  <-> 0 <= b < n j * (S / T))
  /\ (forall j, T <= nt (reads st + 2 * j)%nat -> n j * (S / T) = S).
Proof.
  intros HT HS Hrem S chunk n.
  pose proof Hrem as Hrem'.
  unfold ull_rem in Hrem'. rewrite (to_ull_thread_count HT) in Hrem'.
  assert (HTpos : 0 < T) by (unfold thread_count in HT; lia).
  assert (HT1 : 1 <= T) by lia.
  assert (HS0 : 0 <= S) by (unfold is_ull in HS; subst S; lia).
  assert (Hc : S = T * (S / T)) by (apply Z.div_exact; [lia | exact Hrem']).
  assert (Hc0 : 0 <= S / T) by (apply Z.div_pos; lia).
  assert (Hchunk : forall i, 0 <= i < T -> chunk i = (i * (S / T), S / T))
    by (intros i Hi; exact (chunk_of_exact HT HS Hi)).
  assert (Hn : forall j, 1 <= n j <= T) by (intros j; now apply team_size_bounds).
  split; [|split; [|split; [|split; [|split; [|split]]]]].
  - exists (advance st (2 * SAMPLES) (timeitp_events clock nt T k S (reads st))).
    split; [now apply timeitp_ok|].
    rewrite trace_advance, filter_app, filter_kernel_timeitp.
    apply f_equal, f_equal, map_ext. intros j. apply region_events_exact; auto. apply Hn.
  - intros j i. split; [apply Hn | apply In_team].
  - intros i Hi. rewrite (Hchunk i Hi). split; [reflexivity|]. cbn. lia.
  - intros i j b Hi Hj. rewrite (Hchunk i Hi), (Hchunk j Hj).
    unfold in_range; cbn. intros Hbi Hbj. nia.
  - intros b. split.
    + intros Hb. exists (b / (S / T)).
      assert (Hcpos : 0 < S / T) by nia.
      assert (Hq : 0 <= b / (S / T) < T).
      { split; [apply Z.div_pos; lia|].
        apply Z.div_lt_upper_bound; [lia|]. nia. }
      split; [exact Hq|]. rewrite (Hchunk _ Hq). unfold in_range; cbn.
      pose proof (Z.mul_div_le b (S / T) Hcpos).
      pose proof (Z.mul_succ_div_gt b (S / T) Hcpos). lia.
    + intros (i & Hi & Hb). rewrite (Hchunk i Hi) in Hb.
      unfold in_range in Hb; cbn in Hb. nia.
  - intros j b. specialize (Hn j). split.
    + intros (i & Hi & Hb). apply In_team in Hi.
      rewrite (Hchunk i) in Hb by lia.
      unfold in_range in Hb; cbn in Hb. nia.
    + intros Hb.
      assert (Hcpos : 0 < S / T) by nia.
      exists (b / (S / T)).
      assert (Hq : 0 <= b / (S / T) < n j).
      { split; [apply Z.div_pos; lia|].
        apply Z.div_lt_upper_bound; [lia|]. nia. }
      split; [now apply In_team|]. rewrite (Hchunk (b / (S / T))) by lia.
      unfold in_range; cbn.
      pose proof (Z.mul_div_le b (S / T) Hcpos).
      pose proof (Z.mul_succ_div_gt b (S / T) Hcpos). lia.
  - intros j Hj. unfold n. rewrite team_size_full by assumption. lia.
Qed.

Lemma partition_correct_witness :
  thread_count 4 /\ is_ull (SIZE initial_state)
  /\ ull_rem (SIZE initial_state) (to_ull 4) = 0
  /\ chunk_of (ull_div MAX_SIZE (to_ull 4)) 3 = (3 * (MAX_SIZE / 4), MAX_SIZE / 4)
  /\ exists st',
       timeitp still_clock two_threads 4 read_memory_loop initial_state = Done st'
       /\ filter is_kernel (trace st')
          = List.concat
              (map (fun _ => repeat (EvKernel read_memory_loop 0 268435456) TIMES
                             ++ repeat (EvKernel read_memory_loop 268435456 268435456) TIMES)
                 (seq 0 SAMPLES)).
Proof.
  assert (H1 : thread_count 4) by (unfold thread_count, INT_MAX; lia).
  assert (H2 : is_ull (SIZE initial_state))
    by (unfold is_ull; vm_compute; intuition discriminate).
  assert (H3 : ull_rem (SIZE initial_state) (to_ull 4) = 0) by reflexivity.
  split; [exact H1 | split; [exact H2 | split; [exact H3 | ]]].
  destruct (partition_correct still_clock two_threads 4 read_memory_loop
              initial_state H1 H2 H3) as ((st' & Hrun & Hcalls) & _ & Hchunk & _).
  split; [apply (Hchunk 3); lia|].
  exists st'. split; [exact Hrun|]. rewrite Hcalls. reflexivity.
Defined.

(** ** Bytes moved by a parallel region *)







(** ** Kernel calls, kernel by kernel *)






Lemma filter_kernel_trial (k : kernel) (size : Z) (r : nat) :
  filter is_kernel (trial_events k size r) = repeat (EvKernel k 0 size) TIMES.
Proof. reflexivity. Qed.









